(** * Image-processing Cloud Function: metadata normalizer and event handler

    A shallow embedding of [index.js]:

    - [makeFirestoreCompatible], the helper that turns the tag object
      returned by exiftool into something Firestore accepts;
    - [processImage], the storage-triggered handler, as a computation in a
      state-and-exception monad over the collaborators it talks to
      (Firestore, the three buckets, sharp, exiftool, the local [/tmp]).

    Library behaviour the handler relies on (Node's [Buffer], JavaScript's
    property lookup, [for ... in], the regular expression of the type gate)
    is written out next to the code that uses it. *)

From Stdlib Require Import ZArith NArith Lia Ascii String Strings.Byte.
From Stdlib Require Import Floats.PrimFloat.
From stdpp Require Import gmap strings list fin_maps.

Local Open Scope string_scope.

(* ===================================================================== *)
(** ** JavaScript values                                                   *)
(* ===================================================================== *)

(** What [o.toString] resolves to when it is a function.  The normalizer
    only ever calls it, with no argument or with ['base64']. *)
Inductive method : Type :=
  | ObjectProtoToString            (* Object.prototype.toString          *)
  | BufferProtoToString            (* Buffer.prototype.toString          *)
  | ClassToString (text : string). (* a class's own method: Date,
                                      ExifDateTime, Array (join), ...     *)

(** An object is described by the three things the normalizer observes:
    - [toString]: [Some m] exactly when [typeof o.toString === 'function'];
      [None] for an object created with [Object.create(null)], or one whose
      own [toString] property shadows the inherited method with a
      non-function;
    - [buffer]: [Some bytes] exactly when [Buffer.isBuffer(o)];
    - [props]: the (key, value) pairs [for (key in o)] visits, in
      enumeration order, with [o[key]] as value. *)
Inductive value : Type :=
  | VUndefined
  | VNull
  | VBoolean (b : bool)
  | VNumber (n : float)
  | VString (s : string)
  | VFunction (name : string)
  | VObject (o : object)
with object : Type :=
  | Object (toString : option method) (buffer : option (list Byte.byte))
           (props : list (string * value)).

Definition toString (o : object) : option method :=
  match o with Object m _ _ => m end.
Definition buffer (o : object) : option (list Byte.byte) :=
  match o with Object _ b _ => b end.
Definition props (o : object) : list (string * value) :=
  match o with Object _ _ ps => ps end.

(** [{}]: a fresh ordinary object. *)
Definition empty_object : object := Object (Some ObjectProtoToString) None [].

(** An ordinary object literal. *)
Definition plain (ps : list (string * value)) : object :=
  Object (Some ObjectProtoToString) None ps.

(** [Object.create(null)] with the given properties. *)
Definition bare (ps : list (string * value)) : object := Object None None ps.

(** [Buffer.from(bytes)].  The indices a Buffer enumerates are left out:
    the normalizer never runs [for ... in] over a Buffer. *)
Definition Buffer_from (bs : list Byte.byte) : object :=
  Object (Some BufferProtoToString) (Some bs) [].

(** ToBoolean. *)
Definition truthy (v : value) : bool :=
  match v with
  | VUndefined | VNull => false
  | VBoolean b => b
  | VNumber n =>
      negb (PrimFloat.eqb n 0%float) && PrimFloat.eqb n n (* not 0, not NaN *)
  | VString s => negb (String.eqb s "")
  | VFunction _ | VObject _ => true
  end.

Definition typeof (v : value) : string :=
  match v with
  | VUndefined => "undefined"
  | VNull => "object"
  | VBoolean _ => "boolean"
  | VNumber _ => "number"
  | VString _ => "string"
  | VFunction _ => "function"
  | VObject _ => "object"
  end.

Definition isBuffer (o : object) : bool :=
  match buffer o with Some _ => true | None => false end.

Definition is_function (m : option method) : bool :=
  match m with Some _ => true | None => false end.

(** Exceptions.  The names of the handler's failures follow the spec's
    taxonomy; in the source they are whatever [Error] the collaborator (or
    line 50) throws. *)
Inductive error : Type :=
  | TypeError          (* calling something that is not a function *)
  | RangeError         (* the engine's call stack is exhausted       *)
  | InvalidEvent       (* line 50: 'File name is missing ...'      *)
  | QueryFailed
  | DownloadFailed
  | DerivationFailed
  | ExtractionFailed
  | UploadFailed
  | PersistFailed
  | CleanupFailed.     (* fs.unlinkSync of a directory: EISDIR          *)

Inductive completion (A : Type) : Type :=
  | Ok (a : A)
  | Throw (e : error).
Arguments Ok {A} a.
Arguments Throw {A} e.

Definition rbind {A B} (r : completion A) (k : A -> completion B)
  : completion B :=
  match r with Ok a => k a | Throw e => Throw e end.

(* ===================================================================== *)
(** ** Node's [Buffer.prototype.toString]                                  *)
(* ===================================================================== *)

(** Text is kept as its UTF-8 bytes in a [string]. *)

Module Utf8.

(** U+FFFD, the replacement character. *)
Definition replacement : list N := [239; 191; 189]%N.

(** A multi-byte sequence under way: bytes still needed, the range the
    next byte must lie in, and the bytes read so far. *)
Record pending : Type :=
  { need : nat; lo : N; hi : N; seen : list N }.

Definition within (a b x : N) : bool := (a <=? x)%N && (x <=? b)%N.

Definition begin (n : nat) (a b first : N) : list N + pending :=
  inr {| need := n; lo := a; hi := b; seen := [first] |}.

(** The decoder on a first byte: either output, or a sequence begun. *)
Definition lead (b : N) : list N + pending :=
  if (b <? 128)%N then inl [b]
  else if within 194 223 b then begin 1 128 191 b
  else if (b =? 224)%N then begin 2 160 191 b
  else if (b =? 237)%N then begin 2 128 159 b
  else if within 225 239 b then begin 2 128 191 b
  else if (b =? 240)%N then begin 3 144 191 b
  else if (b =? 244)%N then begin 3 128 143 b
  else if within 241 243 b then begin 3 128 191 b
  else inl replacement.

(** Decoding with replacement: an ill-formed sequence becomes U+FFFD and
    the byte that broke it is read again as a first byte. *)
Fixpoint decode (st : option pending) (bs : list N) : list N :=
  match bs with
  | [] => match st with None => [] | Some _ => replacement end
  | b :: rest =>
      match st with
      | None =>
          match lead b with
          | inl out => out ++ decode None rest
          | inr p => decode (Some p) rest
          end
      | Some p =>
          if within (lo p) (hi p) b then
            match need p with
            | 0 | 1 => seen p ++ b :: decode None rest
            | S n =>
                decode (Some {| need := n; lo := 128; hi := 191;
                                seen := seen p ++ [b] |}) rest
            end
          else
            replacement ++
            match lead b with
            | inl out => out ++ decode None rest
            | inr p' => decode (Some p') rest
            end
      end
  end.

Definition text_of (ns : list N) : string :=
  string_of_list_ascii (map ascii_of_N ns).

(** [buf.toString()], i.e. [buf.toString('utf8')]. *)
Definition utf8Slice (bs : list Byte.byte) : string :=
  text_of (decode None (map Byte.to_N bs)).

End Utf8.

Module Base64.

Definition alphabet : string :=
  "ABCDEFGHIJKLMNOPQRSTUVWXYZabcdefghijklmnopqrstuvwxyz0123456789+/".

Definition pad : ascii := "="%char.

Definition digit (n : N) : ascii :=
  match String.get (N.to_nat n) alphabet with
  | Some c => c
  | None => pad
  end.

Fixpoint index_of (c : ascii) (s : string) (i : N) : option N :=
  match s with
  | EmptyString => None
  | String d s' => if Ascii.eqb c d then Some i else index_of c s' (N.succ i)
  end.

Definition sextet (c : ascii) : option N := index_of c alphabet 0%N.

Definition byte_of (n : N) : Byte.byte :=
  match Byte.of_N n with Some b => b | None => Byte.x00 end.

(** The four six-bit groups of three bytes [a], [b], [c]. *)
Definition first (a : N) : N := (a / 4)%N.
Definition second (a b : N) : N := (a mod 4 * 16 + b / 16)%N.
Definition third (b c : N) : N := (b mod 16 * 4 + c / 64)%N.
Definition fourth (c : N) : N := (c mod 64)%N.

(** The three bytes of four six-bit groups. *)
Definition byte1 (s0 s1 : N) : Byte.byte := byte_of (s0 * 4 + s1 / 16)%N.
Definition byte2 (s1 s2 : N) : Byte.byte :=
  byte_of (s1 mod 16 * 16 + s2 / 4)%N.
Definition byte3 (s2 s3 : N) : Byte.byte := byte_of (s2 mod 4 * 64 + s3)%N.

(** [buf.toString('base64')]: three bytes become four digits; a last group
    of one or two bytes is filled with zero bits and padded with [=]. *)
Fixpoint encode (bs : list Byte.byte) : string :=
  match bs with
  | [] => ""
  | [a] =>
      let a := Byte.to_N a in
      String (digit (first a)) (String (digit (second a 0))
        (String pad (String pad "")))
  | [a; b] =>
      let a := Byte.to_N a in
      let b := Byte.to_N b in
      String (digit (first a)) (String (digit (second a b))
        (String (digit (third b 0)) (String pad "")))
  | a :: b :: c :: rest =>
      let a := Byte.to_N a in
      let b := Byte.to_N b in
      let c := Byte.to_N c in
      String (digit (first a)) (String (digit (second a b))
        (String (digit (third b c)) (String (digit (fourth c))
          (encode rest))))
  end.

(** The inverse direction, [Buffer.from(text, 'base64')], on well-formed
    padded text. *)
Fixpoint decode (s : string) : option (list Byte.byte) :=
  match s with
  | EmptyString => Some []
  | String c0 (String c1 (String c2 (String c3 rest))) =>
      match sextet c0, sextet c1 with
      | Some s0, Some s1 =>
          if Ascii.eqb c2 pad then
            if Ascii.eqb c3 pad && String.eqb rest ""
            then Some [byte1 s0 s1]
            else None
          else
            match sextet c2 with
            | Some s2 =>
                if Ascii.eqb c3 pad then
                  if String.eqb rest ""
                  then Some [byte1 s0 s1; byte2 s1 s2]
                  else None
                else
                  match sextet c3, decode rest with
                  | Some s3, Some tl =>
                      Some (byte1 s0 s1 :: byte2 s1 s2 :: byte3 s2 s3 :: tl)
                  | _, _ => None
                  end
            | None => None
            end
      | _, _ => None
      end
  | _ => None
  end.

End Base64.

Inductive encoding : Type := Enc_base64.

(** [o.toString(...)], as the normalizer calls it: with no argument
    ([None]) or with ['base64'].  Calling a missing or non-function
    [toString] is a TypeError, and so is [Buffer.prototype.toString] on
    something that is not a Buffer. *)
Definition call_toString (o : object) (enc : option encoding)
  : completion value :=
  match toString o with
  | None => Throw TypeError
  | Some ObjectProtoToString =>
      Ok (VString (if isBuffer o then "[object Uint8Array]"
                   else "[object Object]"))
  | Some (ClassToString text) => Ok (VString text)
  | Some BufferProtoToString =>
      match buffer o, enc with
      | None, _ => Throw TypeError
      | Some bs, None => Ok (VString (Utf8.utf8Slice bs))
      | Some bs, Some Enc_base64 => Ok (VString (Base64.encode bs))
      end
  end.

(* ===================================================================== *)
(** ** [makeFirestoreCompatible] (index.js, lines 20-40)                   *)
(* ===================================================================== *)

(** [result[key] = v] on an object that started as [{}].  An existing key
    keeps its place, a new one goes last.  The name [__proto__] is the
    accessor inherited from [Object.prototype]: assigning to it creates no
    own property (the change of prototype it may cause is not tracked). *)
Fixpoint assign (ps : list (string * value)) (key : string) (v : value)
  : list (string * value) :=
  match ps with
  | [] => [(key, v)]
  | (k, w) :: rest =>
      if String.eqb k key then (k, v) :: rest
      else (k, w) :: assign rest key v
  end.

Definition set_prop (result : object) (key : string) (v : value) : object :=
  if String.eqb key "__proto__" then result
  else match result with
       | Object m b ps => Object m b (assign ps key v)
       end.

(** The body of the [for (const key in data)] loop, lines 22-38, with the
    function it calls on line 32 as [self]. *)
Definition for_in (self : object -> completion object)
  : list (string * value) -> object -> completion object :=
  fix loop (ps : list (string * value)) (result : object)
    : completion object :=
    match ps with
    | [] => Ok result
    | (key, v) :: rest =>
        rbind
          (if truthy v && String.eqb (typeof v) "object" then
             match v with
             | VObject o =>
                 if is_function (toString o) then
                   (* Convert objects with a toString method to strings *)
                   rbind (call_toString o None)
                         (fun s => Ok (set_prop result key s))
                 else if isBuffer o then
                   (* Convert binary fields (e.g., Hash) to base64 strings *)
                   rbind (call_toString o (Some Enc_base64))
                         (fun s => Ok (set_prop result key s))
                 else
                   (* Recursively process nested objects *)
                   rbind (self o)
                         (fun r => Ok (set_prop result key (VObject r)))
             | _ => Ok (set_prop result key v) (* not reached: [line23] *)
             end
           else
             (* Directly copy primitive values *)
             Ok (set_prop result key v))
          (loop rest)
    end.

Fixpoint makeFirestoreCompatible (data : object) : completion object :=
  match data with
  | Object _ _ entries => for_in makeFirestoreCompatible entries empty_object
  end.


(** Nesting depth of an object: one more than that of its deepest
    object-valued member. *)
Definition deepest (self : object -> nat) : list (string * value) -> nat :=
  fix go (ps : list (string * value)) : nat :=
    match ps with
    | [] => 0
    | (_, VObject o) :: rest => Nat.max (self o) (go rest)
    | _ :: rest => go rest
    end.

Fixpoint depth (data : object) : nat :=
  match data with
  | Object _ _ entries => S (deepest depth entries)
  end.



(* ===================================================================== *)
(** ** The handler's surroundings                                          *)
(* ===================================================================== *)

Definition bytes : Type := list Byte.byte.

Definition SOURCE_BUCKET : string := "image-upload-bucket-dm01".
Definition THUMBNAIL_BUCKET : string := "thumbnail-bucket-dm01".
Definition PROCESSED_BUCKET : string := "processed-images-bucket-dm01".

(** The trigger payload; only [name] is read. *)
Record event : Type := { name : option string }.

(** A document of the [image_logs] collection (lines 106-114). *)
Record logEntry : Type :=
  { fileName : string;
    sourceBucket : string;
    thumbnailBucket : string;
    processedBucket : string;
    basicMetadata : value;
    fullMetadata : object;
    timestamp : string }.

(** A sharp pipeline: [resize] and [toFormat] set options on the one
    [image] object and return it. *)
Record sharp_image : Type :=
  { input : string;
    resize_to : option (nat * nat);
    format : option string }.

Definition sharp (path : string) : sharp_image :=
  {| input := path; resize_to := None; format := None |}.
Definition resize (image : sharp_image) (w h : nat) : sharp_image :=
  {| input := input image; resize_to := Some (w, h); format := format image |}.
Definition toFormat (image : sharp_image) (f : string) : sharp_image :=
  {| input := input image; resize_to := resize_to image; format := Some f |}.

(** The calls made on the collaborators, in the order they are made, each
    with whether it succeeded. *)
Inductive call : Type :=
  | Firestore_get (key : string)
  | Bucket_download (bucket filePath destination : string)
  | Sharp_metadata (path : string)
  | Sharp_toFile (image : sharp_image) (destination : string)
  | Exiftool_read (path : string)
  | Bucket_upload (bucket path destination : string)
  | Firestore_add (entry : logEntry)
  | Exiftool_end.

Record world : Type :=
  { image_logs : list logEntry;                (* the Firestore collection *)
    storage : gmap string (gmap string bytes); (* bucket name -> objects   *)
    tmp : gmap string bytes;                   (* local files, by path     *)
    exiftool_ended : nat;                      (* exiftool.end() so far    *)
    calls : list (call * bool) }.

(** What a file-producing operation does: write its output, or fail and
    leave at the destination whatever it had got to (nothing, or a partial
    file). *)
Inductive written : Type :=
  | Written (content : bytes)
  | Aborted (leftover : option bytes).

(** How the collaborators behave during one invocation. *)
Record env : Type :=
  { get_fault : bool;                   (* the lookup query rejects        *)
    download_fault : bool;              (* transport or access failure     *)
    download_left : option bytes;       (* what a failed download leaves   *)
    sharp_metadata : bytes -> option value;
    sharp_toFile : sharp_image -> bytes -> written;
    exiftool_read : bytes -> option object;
    upload_fault : string -> bool;      (* per bucket                      *)
    add_fault : bool;
    now : string }.                     (* new Date().toISOString()        *)

(** State and exceptions. *)
Definition M (A : Type) : Type := world -> completion A * world.

Definition ret {A} (a : A) : M A := fun w => (Ok a, w).
Definition throw {A} (e : error) : M A := fun w => (Throw e, w).
Definition bind {A B} (m : M A) (k : A -> M B) : M B :=
  fun w => match m w with
           | (Ok a, w1) => k a w1
           | (Throw e, w1) => (Throw e, w1)
           end.
Definition lift {A} (r : completion A) : M A := fun w => (r, w).

(** [try { body } catch (error) { handler }]. *)
Definition try_catch {A} (body : M A) (handler : error -> M A) : M A :=
  fun w => match body w with
           | (Ok a, w1) => (Ok a, w1)
           | (Throw e, w1) => handler e w1
           end.

(** [try { body } finally { cleanup }]: the cleanup runs on every exit of
    the body, a [return] included, and an exception of its own would
    replace the body's completion. *)
Definition try_finally {A} (body : M A) (cleanup : M unit) : M A :=
  fun w => match body w with
           | (r, w1) =>
               match cleanup w1 with
               | (Ok _, w2) => (r, w2)
               | (Throw e, w2) => (Throw e, w2)
               end
           end.

Notation "x <- m ;; k" := (bind m (fun x => k))
  (at level 100, m at next level, right associativity).
Notation "m ;;; k" := (bind m (fun _ => k))
  (at level 100, right associativity).

Definition record (c : call) (ok : bool) : M unit :=
  fun w => (Ok tt,
            {| image_logs := image_logs w; storage := storage w; tmp := tmp w;
               exiftool_ended := exiftool_ended w;
               calls := calls w ++ [(c, ok)] |}).

Definition set_tmp (f : gmap string bytes -> gmap string bytes) : M unit :=
  fun w => (Ok tt,
            {| image_logs := image_logs w; storage := storage w;
               tmp := f (tmp w);
               exiftool_ended := exiftool_ended w; calls := calls w |}).

Definition leave (path : string) (leftover : option bytes) : M unit :=
  match leftover with
  | Some partial => set_tmp (insert path partial)
  | None => ret tt
  end.

(** The local paths the handler builds are [/tmp/] followed by the last
    segment of the key.  Where that segment is empty, [.] or [..] the path
    names a directory, not a file: it exists, nothing can be written to it
    and [fs.unlinkSync] throws on it. *)
Definition is_directory (path : string) : bool :=
  String.eqb path "/tmp/" || String.eqb path "/tmp/."
  || String.eqb path "/tmp/..".

(** [db.collection('image_logs').where('fileName', '==', key).limit(1).get()] *)
Definition firestore_get (E : env) (key : string) : M (list logEntry) :=
  fun w =>
    if get_fault E then
      (record (Firestore_get key) false ;;; throw QueryFailed) w
    else (record (Firestore_get key) true ;;;
          ret (take 1 (filter (fun d => fileName d = key) (image_logs w)))) w.

(** [db.collection('image_logs').add(entry)] *)
Definition firestore_add (E : env) (entry : logEntry) : M unit :=
  if add_fault E then record (Firestore_add entry) false ;;; throw PersistFailed
  else
    record (Firestore_add entry) true ;;;
    fun w => (Ok tt,
              {| image_logs := image_logs w ++ [entry]; storage := storage w;
                 tmp := tmp w; exiftool_ended := exiftool_ended w;
                 calls := calls w |}).

(** The object stored under [name] in bucket [b], if any. *)
Definition object_at (w : world) (b name : string) : option bytes :=
  storage w !! b ≫= fun objs => objs !! name.

(** [storage.bucket(b).file(filePath).download({ destination })] *)
Definition bucket_download (E : env) (b filePath destination : string)
  : M unit :=
  fun w =>
    if is_directory destination then
      (record (Bucket_download b filePath destination) false ;;;
       throw DownloadFailed) w
    else
      match (if download_fault E then None else object_at w b filePath) with
      | Some content =>
          (record (Bucket_download b filePath destination) true ;;;
           set_tmp (insert destination content)) w
      | None =>
          (record (Bucket_download b filePath destination) false ;;;
           leave destination (download_left E) ;;;
           throw DownloadFailed) w
      end.

(** [storage.bucket(b).upload(path, { destination })]: the object of that
    name is created or replaced. *)
Definition bucket_upload (E : env) (b path destination : string) : M unit :=
  fun w =>
    match (if upload_fault E b then None else tmp w !! path),
          storage w !! b with
    | Some content, Some objs =>
        (record (Bucket_upload b path destination) true ;;;
         fun w => (Ok tt,
                   {| image_logs := image_logs w;
                      storage :=
                        <[b := <[destination := content]> objs]> (storage w);
                      tmp := tmp w; exiftool_ended := exiftool_ended w;
                      calls := calls w |})) w
    | _, _ =>
        (record (Bucket_upload b path destination) false ;;;
         throw UploadFailed) w
    end.

(** [image.metadata()] *)
Definition image_metadata (E : env) (image : sharp_image) : M value :=
  fun w =>
    match tmp w !! input image ≫= sharp_metadata E with
    | Some meta => (record (Sharp_metadata (input image)) true ;;; ret meta) w
    | None =>
        (record (Sharp_metadata (input image)) false ;;;
         throw DerivationFailed) w
    end.

(** [image.toFile(destination)] *)
Definition image_toFile (E : env) (image : sharp_image) (destination : string)
  : M unit :=
  fun w =>
    match sharp_toFile E image <$> tmp w !! input image with
    | Some (Written out) =>
        (record (Sharp_toFile image destination) true ;;;
         set_tmp (insert destination out)) w
    | Some (Aborted leftover) =>
        (record (Sharp_toFile image destination) false ;;;
         leave destination leftover ;;;
         throw DerivationFailed) w
    | None =>
        (record (Sharp_toFile image destination) false ;;;
         throw DerivationFailed) w
    end.

(** [exiftool.read(path)] *)
Definition exiftool_read_file (E : env) (path : string) : M object :=
  fun w =>
    match tmp w !! path ≫= exiftool_read E with
    | Some tags => (record (Exiftool_read path) true ;;; ret tags) w
    | None =>
        (record (Exiftool_read path) false ;;; throw ExtractionFailed) w
    end.

(** [exiftool.end()]; shutting the process down is taken to succeed. *)
Definition exiftool_end : M unit :=
  record Exiftool_end true ;;;
  fun w => (Ok tt,
            {| image_logs := image_logs w; storage := storage w; tmp := tmp w;
               exiftool_ended := S (exiftool_ended w); calls := calls w |}).

(** [if (fs.existsSync(path)) fs.unlinkSync(path)]; the removal of a file
    the invocation has written is taken to succeed. *)
Definition unlink_if_exists (path : string) : M unit :=
  fun w =>
    if is_directory path then (Throw CleanupFailed, w)
    else
      match tmp w !! path with
      | Some _ => set_tmp (delete path) w
      | None => (Ok tt, w)
      end.

(** *** Strings *)

(** [s.split('/')]: never empty. *)
Fixpoint split_slash (cur : string) (s : string) : list string :=
  match s with
  | EmptyString => [cur]
  | String c rest =>
      if Ascii.eqb c "/" then cur :: split_slash "" rest
      else split_slash (cur ++ String c "") rest
  end.

(** [s.split('/').pop()] *)
Definition split_pop (s : string) : string := List.last (split_slash "" s) "".

Definition startsWith_slash (s : string) : bool :=
  match s with
  | String c _ => Ascii.eqb c "/"
  | EmptyString => false
  end.

(** [s.slice(1)] *)
Definition slice1 (s : string) : string :=
  match s with
  | String _ rest => rest
  | EmptyString => ""
  end.

(** Case folding of the [i] flag, on the letters the pattern contains. *)
Definition fold_case (c : ascii) : ascii :=
  let n := N_of_ascii c in
  if (65 <=? n)%N && (n <=? 90)%N then ascii_of_N (n + 32) else c.

Fixpoint fold_string (s : string) : string :=
  match s with
  | EmptyString => ""
  | String c rest => String (fold_case c) (fold_string rest)
  end.

Fixpoint ends_with (suffix s : string) : bool :=
  String.eqb s suffix
  || match s with
     | EmptyString => false
     | String _ rest => ends_with suffix rest
     end.

Definition image_extensions : list string := ["jpg"; "jpeg"; "png"; "gif"].

(** [s.match(/\.(jpg|jpeg|png|gif)$/i)] is not null. *)
Definition match_image (s : string) : bool :=
  existsb (fun ext => ends_with ("." ++ ext) (fold_string s)) image_extensions.

(** [a || b] on two optional strings: the first one that is truthy. *)
Definition or_else (a b : option string) : option string :=
  match a with
  | Some s => if String.eqb s "" then b else a
  | None => b
  end.

(** [!fileName] *)
Definition falsy (a : option string) : bool :=
  match a with
  | Some s => String.eqb s ""
  | None => true
  end.

(* ===================================================================== *)
(** ** [processImage] (index.js, lines 42-137)                             *)
(* ===================================================================== *)

(** The three ways the handler returns [undefined]: the end of the [try]
    block (line 117), the [return] of line 61 and the one of line 84. *)
Inductive outcome : Type := Processed | Skipped | Rejected.

(** Lines 72-117, the [try] block. *)
Definition try_block (E : env)
    (fileName tempFilePath processedImagePath thumbnailPath : string)
  : M outcome :=
  (* Normalize the file path *)
  let filePath :=
    if startsWith_slash fileName then slice1 fileName else fileName in
  (* Download the image from the source bucket *)
  bucket_download E SOURCE_BUCKET filePath tempFilePath ;;;
  (* Validate the file type *)
  if negb (match_image fileName) then ret Rejected else
  (* Generate a thumbnail *)
  let image := sharp tempFilePath in
  basicMetadata <- image_metadata E image ;;
  let image := resize image 200 200 in
  image_toFile E image thumbnailPath ;;;
  (* Extract comprehensive metadata using exiftool *)
  fullMetadata <- exiftool_read_file E tempFilePath ;;
  (* Convert metadata to Firestore-compatible format *)
  firestoreMetadata <- lift (makeFirestoreCompatible fullMetadata) ;;
  (* Upload the thumbnail *)
  bucket_upload E THUMBNAIL_BUCKET thumbnailPath
    ("thumbnail-" ++ split_pop fileName) ;;;
  (* Process and save the image *)
  let image := toFormat image "jpeg" in
  image_toFile E image processedImagePath ;;;
  bucket_upload E PROCESSED_BUCKET processedImagePath
    ("processed-" ++ split_pop fileName) ;;;
  (* Log metadata to Firestore *)
  let logEntry :=
    {| fileName := fileName;
       sourceBucket := SOURCE_BUCKET;
       thumbnailBucket := THUMBNAIL_BUCKET;
       processedBucket := PROCESSED_BUCKET;
       basicMetadata := basicMetadata;
       fullMetadata := firestoreMetadata;
       timestamp := now E |} in
  firestore_add E logEntry ;;;
  ret Processed.

(** Lines 128-136, the [finally] block. *)
Definition finally_block
    (tempFilePath thumbnailPath processedImagePath : string) : M unit :=
  (* Cleanup temporary files *)
  unlink_if_exists tempFilePath ;;;
  unlink_if_exists thumbnailPath ;;;
  unlink_if_exists processedImagePath ;;;
  (* Cleanup ExifTool process to prevent memory leaks *)
  exiftool_end.

Definition processImage (E : env) (event : event) : M outcome :=
  let file := event in
  let fileName := or_else (name file) (name event) in
  if falsy fileName then throw InvalidEvent else
  let fileName := default "" fileName in
  (* Check if file has already been processed (idempotency) *)
  existingLog <- firestore_get E fileName ;;
  if negb (bool_decide (existingLog = [])) then ret Skipped else
  let tempFilePath := "/tmp/" ++ split_pop fileName in
  let processedImagePath := "/tmp/processed-" ++ split_pop fileName in
  let thumbnailPath := "/tmp/thumbnail-" ++ split_pop fileName in
  try_finally
    (try_catch
       (try_block E fileName tempFilePath processedImagePath thumbnailPath)
       (fun error => throw error))
    (finally_block tempFilePath thumbnailPath processedImagePath).

(* ===================================================================== *)
(** ** Vocabulary of the properties                                        *)
(* ===================================================================== *)

(** What lines 23-37 store under a key whose value is [v]. *)
Definition member (self : object -> completion object) (v : value)
  : completion value :=
  match v with
  | VObject o =>
      if is_function (toString o) then call_toString o None
      else if isBuffer o then call_toString o (Some Enc_base64)
      else rbind (self o) (fun r => Ok (VObject r))
  | _ => Ok v
  end.

















(** The key ends, letter case aside, in a dot and one of the accepted
    extensions. *)
Definition has_image_suffix (key : string) : Prop :=
  exists stem ext,
    key = stem ++ "." ++ ext /\ fold_string ext ∈ image_extensions.

(** Among the calls [cs] is a successful upload to bucket [b]. *)
Definition uploaded_to (b : string) (cs : list (call * bool)) : Prop :=
  exists path destination, (Bucket_upload b path destination, true) ∈ cs.

(** Every attempt to insert a record comes after a successful upload to the
    thumbnail bucket and one to the processed bucket. *)
Definition inserts_follow_uploads (new : list (call * bool)) : Prop :=
  forall pre entry ok post,
    new = (pre ++ (Firestore_add entry, ok) :: post)%list ->
    uploaded_to THUMBNAIL_BUCKET pre /\ uploaded_to PROCESSED_BUCKET pre.

(** The same, as a scan of the calls that remembers which uploads it has
    seen succeed. *)
Fixpoint scan (seenT seenP : bool) (cs : list (call * bool)) : bool :=
  match cs with
  | [] => true
  | (Bucket_upload b _ _, true) :: rest =>
      scan (seenT || String.eqb b THUMBNAIL_BUCKET)
           (seenP || String.eqb b PROCESSED_BUCKET) rest
  | (Firestore_add _, _) :: rest => seenT && seenP && scan seenT seenP rest
  | _ :: rest => scan seenT seenP rest
  end.

(** Line 76: the object name, without a leading slash. *)
Definition filePath_of (key : string) : string :=
  if startsWith_slash key then slice1 key else key.

(** The calls of an invocation that goes through. *)
Definition success_trace (key : string) (entry : logEntry)
  : list (call * bool) :=
  let tempFilePath := "/tmp/" ++ split_pop key in
  let processedImagePath := "/tmp/processed-" ++ split_pop key in
  let thumbnailPath := "/tmp/thumbnail-" ++ split_pop key in
  let image := resize (sharp tempFilePath) 200 200 in
  [(Firestore_get key, true);
   (Bucket_download SOURCE_BUCKET (filePath_of key) tempFilePath, true);
   (Sharp_metadata tempFilePath, true);
   (Sharp_toFile image thumbnailPath, true);
   (Exiftool_read tempFilePath, true);
   (Bucket_upload THUMBNAIL_BUCKET thumbnailPath
      ("thumbnail-" ++ split_pop key), true);
   (Sharp_toFile (toFormat image "jpeg") processedImagePath, true);
   (Bucket_upload PROCESSED_BUCKET processedImagePath
      ("processed-" ++ split_pop key), true);
   (Firestore_add entry, true);
   (Exiftool_end, true)].

(** The exits on which line 135 is not reached: those taken before the
    [try] statement is entered (lines 50 and 61, and a lookup that fails),
    and the [finally] block itself giving up on line 130. *)
Definition released_on (r : completion outcome) : bool :=
  match r with
  | Throw InvalidEvent | Throw QueryFailed | Ok Skipped => false
  | Throw CleanupFailed => false
  | _ => true
  end.


(* ===================================================================== *)
(** ** What the normalizer returns                                          *)
(* ===================================================================== *)




(* ===================================================================== *)
(** ** The ways through the handler                                         *)
(* ===================================================================== *)

(** The error the handler's caller sees when call [c] fails. *)
Definition error_of (c : call) : error :=
  match c with
  | Firestore_get _ => QueryFailed
  | Bucket_download _ _ _ => DownloadFailed
  | Sharp_metadata _ | Sharp_toFile _ _ => DerivationFailed
  | Exiftool_read _ => ExtractionFailed
  | Bucket_upload _ _ _ => UploadFailed
  | Firestore_add _ => PersistFailed
  | Exiftool_end => CleanupFailed
  end.

(** [s.includes('/')] *)
Fixpoint has_slash (s : string) : bool :=
  match s with
  | EmptyString => false
  | String c rest => Ascii.eqb c "/" || has_slash rest
  end.

(** Nothing is called after a call that failed. *)
Fixpoint stops_at_failure (cs : list (call * bool)) : bool :=
  match cs with
  | [] => true
  | (_, false) :: rest => match rest with [] => true | _ => false end
  | (_, true) :: rest => stops_at_failure rest
  end.

(** The same for a whole invocation, where the release of the [finally]
    block may still follow. *)
Fixpoint only_release_follows (cs : list (call * bool)) : bool :=
  match cs with
  | [] => true
  | (_, false) :: rest =>
      match rest with
      | [] | [(Exiftool_end, true)] => true
      | _ => false
      end
  | (_, true) :: rest => only_release_follows rest
  end.

(** What the operations do to the world. *)
Definition called (c : call) (ok : bool) (w : world) : world :=
  {| image_logs := image_logs w; storage := storage w; tmp := tmp w;
     exiftool_ended := exiftool_ended w; calls := calls w ++ [(c, ok)] |}.

Definition stored (path : string) (content : bytes) (w : world) : world :=
  {| image_logs := image_logs w; storage := storage w;
     tmp := <[path := content]> (tmp w);
     exiftool_ended := exiftool_ended w; calls := calls w |}.

Definition left_behind (path : string) (leftover : option bytes) (w : world)
  : world :=
  match leftover with
  | Some partial => stored path partial w
  | None => w
  end.

Definition published (b destination : string) (content : bytes)
    (objs : gmap string bytes) (w : world) : world :=
  {| image_logs := image_logs w;
     storage := <[b := <[destination := content]> objs]> (storage w);
     tmp := tmp w; exiftool_ended := exiftool_ended w; calls := calls w |}.

Definition logged (entry : logEntry) (w : world) : world :=
  {| image_logs := image_logs w ++ [entry]; storage := storage w;
     tmp := tmp w; exiftool_ended := exiftool_ended w; calls := calls w |}.

(** The world once the [finally] block has run to its end. *)
Definition cleaned (key : string) (w : world) : world :=
  {| image_logs := image_logs w; storage := storage w;
     tmp := delete ("/tmp/processed-" ++ split_pop key)
              (delete ("/tmp/thumbnail-" ++ split_pop key)
                 (delete ("/tmp/" ++ split_pop key) (tmp w)));
     exiftool_ended := S (exiftool_ended w);
     calls := calls w ++ [(Exiftool_end, true)] |}.

(** The record of lines 106-114. *)
Definition entry_of (E : env) (key : string) (meta : value) (norm : object)
  : logEntry :=
  {| fileName := key; sourceBucket := SOURCE_BUCKET;
     thumbnailBucket := THUMBNAIL_BUCKET;
     processedBucket := PROCESSED_BUCKET;
     basicMetadata := meta; fullMetadata := norm; timestamp := now E |}.

Section Block.

Variables (E : env) (f t pr th : string) (w : world).

Definition the_download : call :=
  Bucket_download SOURCE_BUCKET (filePath_of f) t.

(** [image] as it is from line 90 on, and from line 102 on. *)
Definition thumbnail_image : sharp_image := resize (sharp t) 200 200.
Definition jpeg_image : sharp_image := toFormat thumbnail_image "jpeg".

Definition the_thumbnail_upload : call :=
  Bucket_upload THUMBNAIL_BUCKET th ("thumbnail-" ++ split_pop f).
Definition the_processed_upload : call :=
  Bucket_upload PROCESSED_BUCKET pr ("processed-" ++ split_pop f).

(** How far the [try] block has got, and the world it has made by then. *)
Definition downloaded (content : bytes) : Prop :=
  is_directory t = false /\ download_fault E = false /\
  object_at w SOURCE_BUCKET (filePath_of f) = Some content.

Definition at_gate (content : bytes) : world :=
  stored t content (called the_download true w).

Definition measured (content : bytes) (meta : value) : Prop :=
  downloaded content /\ match_image f = true /\
  sharp_metadata E content = Some meta.

Definition at_resize (content : bytes) : world :=
  called (Sharp_metadata t) true (at_gate content).

Definition resized (content : bytes) (meta : value) (thumb : bytes) : Prop :=
  measured content meta /\
  sharp_toFile E thumbnail_image content = Written thumb.

Definition at_extraction (content thumb : bytes) : world :=
  stored th thumb
    (called (Sharp_toFile thumbnail_image th) true (at_resize content)).

Definition extracted (content : bytes) (meta : value) (thumb : bytes)
    (tags : object) : Prop :=
  resized content meta thumb /\ exiftool_read E content = Some tags.

Definition at_upload (content thumb : bytes) : world :=
  called (Exiftool_read t) true (at_extraction content thumb).

Definition converted (content : bytes) (meta : value) (thumb : bytes)
    (tags norm : object) : Prop :=
  extracted content meta thumb tags /\
  makeFirestoreCompatible tags = Ok norm.

Definition thumbnail_published (content : bytes) (meta : value)
    (thumb : bytes) (tags norm : object) (objsT : gmap string bytes) : Prop :=
  converted content meta thumb tags norm /\
  upload_fault E THUMBNAIL_BUCKET = false /\
  storage w !! THUMBNAIL_BUCKET = Some objsT.

Definition at_reencoding (content thumb : bytes) (objsT : gmap string bytes)
  : world :=
  published THUMBNAIL_BUCKET ("thumbnail-" ++ split_pop f) thumb objsT
    (called the_thumbnail_upload true (at_upload content thumb)).

Definition reencoded (content : bytes) (meta : value) (thumb : bytes)
    (tags norm : object) (objsT : gmap string bytes) (jpeg : bytes) : Prop :=
  thumbnail_published content meta thumb tags norm objsT /\
  sharp_toFile E jpeg_image content = Written jpeg.

Definition at_second_upload (content thumb : bytes)
    (objsT : gmap string bytes) (jpeg : bytes) : world :=
  stored pr jpeg
    (called (Sharp_toFile jpeg_image pr) true
       (at_reencoding content thumb objsT)).

Definition processed_published (content : bytes) (meta : value)
    (thumb : bytes) (tags norm : object) (objsT : gmap string bytes)
    (jpeg : bytes) (objsP : gmap string bytes) : Prop :=
  reencoded content meta thumb tags norm objsT jpeg /\
  upload_fault E PROCESSED_BUCKET = false /\
  storage w !! PROCESSED_BUCKET = Some objsP.

Definition at_insert (content thumb : bytes) (objsT : gmap string bytes)
    (jpeg : bytes) (objsP : gmap string bytes) : world :=
  published PROCESSED_BUCKET ("processed-" ++ split_pop f) jpeg objsP
    (called the_processed_upload true
       (at_second_upload content thumb objsT jpeg)).

(** The twelve ways the [try] block ends. *)
Inductive block_run : completion outcome * world -> Prop :=
  | Download_refused :
      is_directory t = true ->
      block_run (Throw DownloadFailed, called the_download false w)
  | Download_failed :
      is_directory t = false ->
      download_fault E = true \/
      object_at w SOURCE_BUCKET (filePath_of f) = None ->
      block_run
        (Throw DownloadFailed,
         left_behind t (download_left E) (called the_download false w))
  | Type_rejected content :
      downloaded content -> match_image f = false ->
      block_run (Ok Rejected, at_gate content)
  | Metadata_failed content :
      downloaded content -> match_image f = true ->
      sharp_metadata E content = None ->
      block_run
        (Throw DerivationFailed,
         called (Sharp_metadata t) false (at_gate content))
  | Resize_failed content meta leftover :
      measured content meta ->
      sharp_toFile E thumbnail_image content = Aborted leftover ->
      block_run
        (Throw DerivationFailed,
         left_behind th leftover
           (called (Sharp_toFile thumbnail_image th) false
              (at_resize content)))
  | Extraction_failed content meta thumb :
      resized content meta thumb -> exiftool_read E content = None ->
      block_run
        (Throw ExtractionFailed,
         called (Exiftool_read t) false (at_extraction content thumb))
  | Conversion_failed content meta thumb tags :
      extracted content meta thumb tags ->
      makeFirestoreCompatible tags = Throw TypeError ->
      block_run (Throw TypeError, at_upload content thumb)
  | Thumbnail_upload_failed content meta thumb tags norm :
      converted content meta thumb tags norm ->
      upload_fault E THUMBNAIL_BUCKET = true \/
      storage w !! THUMBNAIL_BUCKET = None ->
      block_run
        (Throw UploadFailed,
         called the_thumbnail_upload false (at_upload content thumb))
  | Reencoding_failed content meta thumb tags norm objsT leftover :
      thumbnail_published content meta thumb tags norm objsT ->
      sharp_toFile E jpeg_image content = Aborted leftover ->
      block_run
        (Throw DerivationFailed,
         left_behind pr leftover
           (called (Sharp_toFile jpeg_image pr) false
              (at_reencoding content thumb objsT)))
  | Processed_upload_failed content meta thumb tags norm objsT jpeg :
      reencoded content meta thumb tags norm objsT jpeg ->
      upload_fault E PROCESSED_BUCKET = true \/
      storage w !! PROCESSED_BUCKET = None ->
      block_run
        (Throw UploadFailed,
         called the_processed_upload false
           (at_second_upload content thumb objsT jpeg))
  | Insert_failed content meta thumb tags norm objsT jpeg objsP :
      processed_published content meta thumb tags norm objsT jpeg objsP ->
      add_fault E = true ->
      block_run
        (Throw PersistFailed,
         called (Firestore_add (entry_of E f meta norm)) false
           (at_insert content thumb objsT jpeg objsP))
  | Block_completed content meta thumb tags norm objsT jpeg objsP :
      processed_published content meta thumb tags norm objsT jpeg objsP ->
      add_fault E = false ->
      block_run
        (Ok Processed,
         logged (entry_of E f meta norm)
           (called (Firestore_add (entry_of E f meta norm)) true
              (at_insert content thumb objsT jpeg objsP))).

End Block.

(** The five ways through [processImage]. *)
Inductive invocation (E : env) (ev : event) (w : world)
  : completion outcome * world -> Prop :=
  | Unkeyed :
      falsy (name ev) = true ->
      invocation E ev w (Throw InvalidEvent, w)
  | Lookup_failed key :
      name ev = Some key -> key <> "" -> get_fault E = true ->
      invocation E ev w (Throw QueryFailed, called (Firestore_get key) false w)
  | Already_recorded key d :
      name ev = Some key -> key <> "" -> get_fault E = false ->
      d ∈ image_logs w -> fileName d = key ->
      invocation E ev w (Ok Skipped, called (Firestore_get key) true w)
  | Cleanup_refused key :
      name ev = Some key -> key <> "" -> get_fault E = false ->
      (forall d, d ∈ image_logs w -> fileName d <> key) ->
      is_directory ("/tmp/" ++ split_pop key) = true ->
      invocation E ev w
        (Throw CleanupFailed,
         called (the_download key ("/tmp/" ++ split_pop key)) false
           (called (Firestore_get key) true w))
  | Entered key r w1 :
      name ev = Some key -> key <> "" -> get_fault E = false ->
      (forall d, d ∈ image_logs w -> fileName d <> key) ->
      is_directory ("/tmp/" ++ split_pop key) = false ->
      block_run E key ("/tmp/" ++ split_pop key)
        ("/tmp/processed-" ++ split_pop key)
        ("/tmp/thumbnail-" ++ split_pop key)
        (called (Firestore_get key) true w) (r, w1) ->
      invocation E ev w (r, cleaned key w1).

(* ===================================================================== *)
(** ** Sample inputs                                                       *)
(* ===================================================================== *)

(** Tags as exiftool-vendored returns them: text, a binary field, a date
    object with its own [toString], and a structure without one. *)
Definition sample_tags : object :=
  plain
    [("Make", VString "Canon");
     ("Hash", VObject (Buffer_from ["h"%byte; "i"%byte]));
     ("DateTimeOriginal",
      VObject (Object (Some (ClassToString "2024-05-01T10:00:00")) None
                 [("year", VNumber 2024%float)]));
     ("Raw",
      VObject (bare [("x", VNull);
                     ("y", VObject (bare [("z", VBoolean true)]))]))].



Definition hash_bytes : list Byte.byte :=
  [Byte.xde; Byte.xad; Byte.xbe; Byte.xef].

(** [{ Hash: Buffer.from([0xde, 0xad, 0xbe, 0xef]) }] *)
Definition hash_sample : object :=
  plain [("Hash", VObject (Buffer_from hash_bytes))].

Definition flat_sample : object :=
  plain [("Make", VString "Canon"); ("ISO", VNumber 100%float);
         ("Flash", VBoolean false); ("Comment", VNull)].

Definition sample_env : env :=
  {| get_fault := false;
     download_fault := false;
     download_left := None;
     sharp_metadata :=
       fun _ => Some (VObject (plain [("width", VNumber 640%float);
                                      ("height", VNumber 480%float)]));
     sharp_toFile :=
       fun image content =>
         Written (match format image with
                  | Some _ => "j"%byte :: content
                  | None => "t"%byte :: content
                  end);
     exiftool_read := fun _ => Some sample_tags;
     upload_fault := fun _ => false;
     add_fault := false;
     now := "2024-05-01T10:00:00.000Z" |}.

Definition sample_world : world :=
  {| image_logs := [];
     storage :=
       {[ SOURCE_BUCKET :=
            {[ "a/x.jpg" := ["1"%byte]; "b/x.jpg" := ["2"%byte];
               "notes/readme.txt" := ["r"%byte] ]};
          THUMBNAIL_BUCKET := ∅;
          PROCESSED_BUCKET := ∅ ]};
     tmp := ∅;
     exiftool_ended := 0;
     calls := [] |}.


Definition sample_entry : logEntry :=
  {| fileName := "a/x.jpg";
     sourceBucket := SOURCE_BUCKET;
     thumbnailBucket := THUMBNAIL_BUCKET;
     processedBucket := PROCESSED_BUCKET;
     basicMetadata := VNull;
     fullMetadata := flat_sample;
     timestamp := "2024-05-01T09:00:00.000Z" |}.

(** The sample world once ["a/x.jpg"] has been recorded. *)
Definition logged_world : world :=
  {| image_logs := [sample_entry];
     storage := storage sample_world;
     tmp := ∅;
     exiftool_ended := 0;
     calls := [] |}.



(** The sample surroundings with faults switched on. *)
Definition faulty_env (get download : bool) (leftover : option bytes)
    (upload : string -> bool) : env :=
  {| get_fault := get;
     download_fault := download;
     download_left := leftover;
     sharp_metadata := sharp_metadata sample_env;
     sharp_toFile := sharp_toFile sample_env;
     exiftool_read := exiftool_read sample_env;
     upload_fault := upload;
     add_fault := false;
     now := now sample_env |}.

(** The sample world once ["a/x.jpg"] has been processed. *)
Definition processed_world : world :=
  (processImage sample_env {| name := Some "a/x.jpg" |} sample_world).2.

(** What [sample_env] reports as [image.metadata()]. *)
Definition sample_meta : value :=
  VObject (plain [("width", VNumber 640%float); ("height", VNumber 480%float)]).

(** What [sample_tags] is normalized to. *)
Definition sample_norm : object :=
  plain
    [("Make", VString "Canon");
     ("Hash", VString "hi");
     ("DateTimeOriginal", VString "2024-05-01T10:00:00");
     ("Raw",
      VObject (plain [("x", VNull);
                      ("y", VObject (plain [("z", VBoolean true)]))]))].

(* ===================================================================== *)
(** ** Base64                                                              *)
(* ===================================================================== *)

Section Base64_roundtrip.

Import Base64.
Open Scope N_scope.

Ltac euclid :=
  unfold first, second, third, fourth in *;
  zify; Z.to_euclidean_division_equations; lia.

Lemma digit_sextet n :
  n < 64 -> sextet (digit n) = Some n /\ Ascii.eqb (digit n) pad = false.
Proof.
  intros Hn. rewrite <- (N2Nat.id n).
  assert (N.to_nat n < 64)%nat as Hk by lia.
  clear Hn. revert Hk. generalize (N.to_nat n). clear n. intros k Hk.
  do 64 (destruct k as [|k]; [split; reflexivity|]). lia.
Qed.

Lemma groups_bounded a b c :
  a <= 255 -> b <= 255 -> c <= 255 ->
  first a < 64 /\ second a b < 64 /\ third b c < 64 /\ fourth c < 64.
Proof. intros Ha Hb Hc. repeat split; euclid. Qed.

Lemma byte_of_to_N a : byte_of (Byte.to_N a) = a.
Proof. unfold byte_of. now rewrite Byte.of_to_N. Qed.

Lemma bytes_back a b c :
  byte1 (first (Byte.to_N a)) (second (Byte.to_N a) (Byte.to_N b)) = a /\
  byte2 (second (Byte.to_N a) (Byte.to_N b))
        (third (Byte.to_N b) (Byte.to_N c)) = b /\
  byte3 (third (Byte.to_N b) (Byte.to_N c)) (fourth (Byte.to_N c)) = c.
Proof.
  pose proof (Byte.to_N_bounded a) as Ha.
  pose proof (Byte.to_N_bounded b) as Hb.
  pose proof (Byte.to_N_bounded c) as Hc.
  unfold byte1, byte2, byte3. repeat split.
  - rewrite <- (byte_of_to_N a) at 3. f_equal. euclid.
  - rewrite <- (byte_of_to_N b) at 3. f_equal. euclid.
  - rewrite <- (byte_of_to_N c) at 3. f_equal. euclid.
Qed.

(** A last group of one or two bytes decodes as if the missing bytes were
    zero. *)
Lemma bytes_back_padded a b :
  byte1 (first (Byte.to_N a)) (second (Byte.to_N a) 0) = a /\
  byte2 (second (Byte.to_N a) (Byte.to_N b)) (third (Byte.to_N b) 0) = b.
Proof.
  pose proof (Byte.to_N_bounded a) as Ha.
  pose proof (Byte.to_N_bounded b) as Hb.
  unfold byte1, byte2. split.
  - rewrite <- (byte_of_to_N a) at 3. f_equal. euclid.
  - rewrite <- (byte_of_to_N b) at 3. f_equal. euclid.
Qed.

Lemma decode_group c0 c1 c2 c3 rest :
  decode (String c0 (String c1 (String c2 (String c3 rest)))) =
  match sextet c0, sextet c1 with
  | Some s0, Some s1 =>
      if Ascii.eqb c2 pad then
        if Ascii.eqb c3 pad && String.eqb rest ""
        then Some [byte1 s0 s1]
        else None
      else
        match sextet c2 with
        | Some s2 =>
            if Ascii.eqb c3 pad then
              if String.eqb rest ""
              then Some [byte1 s0 s1; byte2 s1 s2]
              else None
            else
              match sextet c3, decode rest with
              | Some s3, Some tl =>
                  Some (byte1 s0 s1 :: byte2 s1 s2 :: byte3 s2 s3 :: tl)
              | _, _ => None
              end
        | None => None
        end
  | _, _ => None
  end.
Proof. reflexivity. Qed.

Lemma decode_encode_1 a : decode (encode [a]) = Some [a].
Proof.
  pose proof (Byte.to_N_bounded a) as Ha.
  destruct (groups_bounded (Byte.to_N a) 0 0) as (H0 & H1 & _); try lia.
  change (encode [a]) with
    (String (digit (first (Byte.to_N a)))
       (String (digit (second (Byte.to_N a) 0))
          (String pad (String pad "")))).
  rewrite decode_group.
  destruct (digit_sextet _ H0) as [-> _].
  destruct (digit_sextet _ H1) as [-> _].
  change (Ascii.eqb pad pad) with true. cbn [andb String.eqb].
  destruct (bytes_back_padded a a) as [-> _]. reflexivity.
Qed.

Lemma decode_encode_2 a b : decode (encode [a; b]) = Some [a; b].
Proof.
  pose proof (Byte.to_N_bounded a) as Ha.
  pose proof (Byte.to_N_bounded b) as Hb.
  destruct (groups_bounded (Byte.to_N a) (Byte.to_N b) 0)
    as (H0 & H1 & _); try lia.
  destruct (groups_bounded 0 (Byte.to_N b) 0) as (_ & _ & H2 & _); try lia.
  change (encode [a; b]) with
    (String (digit (first (Byte.to_N a)))
       (String (digit (second (Byte.to_N a) (Byte.to_N b)))
          (String (digit (third (Byte.to_N b) 0)) (String pad "")))).
  rewrite decode_group.
  destruct (digit_sextet _ H0) as [-> _].
  destruct (digit_sextet _ H1) as [-> _].
  destruct (digit_sextet _ H2) as [-> ->].
  change (Ascii.eqb pad pad) with true. cbn [String.eqb].
  destruct (bytes_back a b b) as [-> _].
  destruct (bytes_back_padded a b) as [_ ->]. reflexivity.
Qed.

Lemma decode_encode_3 a b c rest :
  decode (encode rest) = Some rest ->
  decode (encode (a :: b :: c :: rest)) = Some (a :: b :: c :: rest).
Proof.
  intros IH.
  pose proof (Byte.to_N_bounded a) as Ha.
  pose proof (Byte.to_N_bounded b) as Hb.
  pose proof (Byte.to_N_bounded c) as Hc.
  destruct (groups_bounded (Byte.to_N a) (Byte.to_N b) (Byte.to_N c))
    as (H0 & H1 & H2 & H3); try lia.
  change (encode (a :: b :: c :: rest)) with
    (String (digit (first (Byte.to_N a)))
       (String (digit (second (Byte.to_N a) (Byte.to_N b)))
          (String (digit (third (Byte.to_N b) (Byte.to_N c)))
             (String (digit (fourth (Byte.to_N c))) (encode rest))))).
  rewrite decode_group.
  destruct (digit_sextet _ H0) as [-> _].
  destruct (digit_sextet _ H1) as [-> _].
  destruct (digit_sextet _ H2) as [-> ->].
  destruct (digit_sextet _ H3) as [-> ->].
  rewrite IH. destruct (bytes_back a b c) as (-> & -> & ->). reflexivity.
Qed.

(** Base64 text decodes to the bytes it encodes. *)
Lemma decode_encode bs : decode (encode bs) = Some bs.
Proof.
  assert (forall n bs, (length bs <= n)%nat -> decode (encode bs) = Some bs)
    as Hn; [|now apply (Hn (length bs))].
  clear bs. induction n as [|n IH]; intros bs Hlen.
  - destruct bs; [reflexivity | simpl in Hlen; lia].
  - destruct bs as [|a [|b [|c rest]]].
    + reflexivity.
    + apply decode_encode_1.
    + apply decode_encode_2.
    + apply decode_encode_3, IH. simpl in Hlen. lia.
Qed.

End Base64_roundtrip.

(* ===================================================================== *)
(** ** The normalizer                                                      *)
(* ===================================================================== *)

Section Normalizer.

Open Scope list_scope.

Lemma deepest_bound self ps k o :
  (k, VObject o) ∈ ps -> self o <= deepest self ps.
Proof.
  induction ps as [|[k' v] ps IH]; intros Hin.
  - inversion Hin.
  - apply elem_of_cons in Hin as [Heq|Hin].
    + injection Heq as <- <-. simpl. lia.
    + specialize (IH Hin). simpl. destruct v; try exact IH. lia.
Qed.

(** Induction on an object through its object-valued members. *)
Lemma object_members_ind (P : object -> Prop) :
  (forall m b ps,
      (forall k o, (k, VObject o) ∈ ps -> P o) -> P (Object m b ps)) ->
  forall o, P o.
Proof.
  intros step o.
  assert (forall n o, depth o <= n -> P o) as Hn; [|now apply (Hn (depth o))].
  clear o. induction n as [|n IH]; intros [m b ps] Hd; simpl in Hd; [lia|].
  apply step. intros k o Hin. apply IH.
  pose proof (deepest_bound depth ps k o Hin). lia.
Qed.

(** The condition of line 23 holds of objects only ([null] is falsy). *)
Lemma line23 (v : value) :
  truthy v && String.eqb (typeof v) "object" = true <-> exists o, v = VObject o.
Proof.
  split.
  - destruct v; simpl; try discriminate;
      try (rewrite andb_false_r; discriminate).
    eauto.
  - intros [o ->]. reflexivity.
Qed.

(** One turn of the loop stores [member self v] under the key. *)
Lemma for_in_cons self key v rest result :
  for_in self ((key, v) :: rest) result =
  rbind (member self v) (fun x => for_in self rest (set_prop result key x)).
Proof.
  simpl. destruct v; simpl; rewrite ?andb_false_r; try reflexivity.
  destruct (is_function (toString o)).
  - destruct (call_toString o None); reflexivity.
  - destruct (isBuffer o).
    + destruct (call_toString o (Some Enc_base64)); reflexivity.
    + destruct (self o); reflexivity.
Qed.

Lemma for_in_nil self result : for_in self [] result = Ok result.
Proof. reflexivity. Qed.



Lemma call_toString_throws o enc e :
  call_toString o enc = Throw e -> e = TypeError.
Proof.
  unfold call_toString.
  destruct (toString o) as [[| |text]|]; try discriminate.
  - destruct (buffer o), enc as [[]|]; try discriminate; congruence.
  - congruence.
Qed.

(** Line 29 is only reached when [toString] is not a function, and then
    calling it cannot succeed. *)
Lemma binary_branch_throws o :
  is_function (toString o) = false ->
  call_toString o (Some Enc_base64) = Throw TypeError.
Proof.
  unfold call_toString. destruct (toString o); [discriminate | reflexivity].
Qed.

Lemma for_in_throws self ps result e :
  (forall k o e',
      (k, VObject o) ∈ ps -> self o = Throw e' -> e' = TypeError) ->
  for_in self ps result = Throw e -> e = TypeError.
Proof.
  revert result. induction ps as [|[k v] ps IH]; intros result Hself.
  - discriminate.
  - rewrite for_in_cons.
    destruct (member self v) as [x|e'] eqn:Hm; simpl.
    + apply IH. intros k' o' e'' Hin. apply (Hself k'). now right.
    + intros [= <-]. destruct v; try discriminate Hm. simpl in Hm.
      destruct (is_function (toString o)).
      { eapply call_toString_throws, Hm. }
      destruct (isBuffer o).
      { eapply call_toString_throws, Hm. }
      destruct (self o) eqn:Ho; [discriminate|].
      injection Hm as <-. apply (Hself k o); [left | exact Ho].
Qed.

Lemma only_TypeError data e :
  makeFirestoreCompatible data = Throw e -> e = TypeError.
Proof.
  revert e. induction data as [m b ps IH] using object_members_ind.
  intros e. simpl. apply for_in_throws.
  intros k o e' Hin. now apply (IH k).
Qed.




(** *** Keys *)











(** *** Normalized inputs *)








End Normalizer.

(* ===================================================================== *)
(** ** The handler                                                         *)
(* ===================================================================== *)

Section Handler.

Open Scope list_scope.

Lemma uploaded_to_cons b c cs : uploaded_to b cs -> uploaded_to b (c :: cs).
Proof. intros (p & d & Hin). exists p, d. now right. Qed.

(** One step of the scan: what it has seen afterwards, it had seen before
    or sees in this call. *)
Lemma scan_step seenT seenP c ok cs :
  scan seenT seenP ((c, ok) :: cs) = true ->
  exists seenT' seenP',
    scan seenT' seenP' cs = true /\
    (seenT' = true ->
     seenT = true \/ uploaded_to THUMBNAIL_BUCKET [(c, ok)]) /\
    (seenP' = true ->
     seenP = true \/ uploaded_to PROCESSED_BUCKET [(c, ok)]).
Proof.
  destruct c, ok; simpl; intros Hscan;
    try (exists seenT, seenP; now auto).
  - eexists _, _. split; [exact Hscan|].
    split; intros Hseen; apply orb_true_iff in Hseen as [Hseen|Heq];
      auto; apply String.eqb_eq in Heq as ->; right; eexists _, _; left.
  - apply andb_true_iff in Hscan as [_ Hscan]. exists seenT, seenP. auto.
  - apply andb_true_iff in Hscan as [_ Hscan]. exists seenT, seenP. auto.
Qed.

Lemma scan_sound cs : forall seenT seenP pre entry ok post,
  scan seenT seenP cs = true ->
  cs = pre ++ (Firestore_add entry, ok) :: post ->
  (seenT = true \/ uploaded_to THUMBNAIL_BUCKET pre) /\
  (seenP = true \/ uploaded_to PROCESSED_BUCKET pre).
Proof.
  induction cs as [|[c ok'] cs IH];
    intros seenT seenP pre entry ok post Hscan Heq.
  - now destruct pre.
  - destruct pre as [|[c0 ok0] pre]; simpl in Heq; injection Heq as -> -> ->.
    + simpl in Hscan. apply andb_true_iff in Hscan as [Hseen _].
      apply andb_true_iff in Hseen as [-> ->]. now split; left.
    + apply scan_step in Hscan as (seenT' & seenP' & Hscan & HT & HP).
      destruct (IH _ _ _ _ _ _ Hscan eq_refl) as [HT' HP'].
      split.
      * destruct HT' as [HT'|HT']; [|right; now apply uploaded_to_cons].
        destruct (HT HT') as [?|(p & d & Hin)]; [now left|].
        right. exists p, d. apply list_elem_of_singleton in Hin as ->. left.
      * destruct HP' as [HP'|HP']; [|right; now apply uploaded_to_cons].
        destruct (HP HP') as [?|(p & d & Hin)]; [now left|].
        right. exists p, d. apply list_elem_of_singleton in Hin as ->. left.
Qed.

Lemma scan_inserts_follow_uploads new :
  scan false false new = true -> inserts_follow_uploads new.
Proof.
  intros Hscan pre entry ok post Heq.
  destruct (scan_sound _ _ _ _ _ _ _ Hscan Heq) as [[?|?] [?|?]];
    now try split.
Qed.

(** The scan of a longer trace, from what a shorter one has shown. *)
Lemma scan_framed new first last seenT seenP :
  scan seenT seenP new = true ->
  (forall b p d, first <> Bucket_upload b p d) ->
  (forall entry, first <> Firestore_add entry) ->
  (forall entry, last <> Firestore_add entry) ->
  scan seenT seenP ((first, true) :: new ++ [(last, true)]) = true.
Proof.
  intros Hscan Hup Hadd Hlast.
  assert (scan seenT seenP (new ++ [(last, true)]) = true) as Hnew.
  { clear Hup Hadd. revert seenT seenP Hscan.
    induction new as [|[c ok] new IH]; intros seenT seenP Hscan.
    - destruct last; simpl; try reflexivity. now destruct (Hlast entry).
    - simpl in *. destruct c, ok; auto.
      all: apply andb_true_iff in Hscan as [-> Hscan]; simpl; auto. }
  destruct first; simpl; try exact Hnew.
  - now destruct (Hup bucket path destination).
  - now destruct (Hadd entry).
Qed.

Lemma unlink_if_exists_eq path w :
  is_directory path = false ->
  unlink_if_exists path w =
  (Ok tt, {| image_logs := image_logs w; storage := storage w;
             tmp := delete path (tmp w);
             exiftool_ended := exiftool_ended w; calls := calls w |}).
Proof.
  intros Hfile. unfold unlink_if_exists, set_tmp. rewrite Hfile.
  destruct (tmp w !! path) eqn:Hp; [reflexivity|].
  rewrite delete_id by assumption. now destruct w.
Qed.

(** The paths of the thumbnail and of the processed copy always name
    files. *)
Lemma derived_paths_are_files (b : string) :
  is_directory ("/tmp/thumbnail-" ++ b)%string = false /\
  is_directory ("/tmp/processed-" ++ b)%string = false.
Proof. split; reflexivity. Qed.

(** The [finally] block on the paths of a key whose last segment names a
    file: the three files are gone and the extractor is shut down. *)
Lemma finally_block_eq b w :
  is_directory ("/tmp/" ++ b)%string = false ->
  finally_block ("/tmp/" ++ b)%string ("/tmp/thumbnail-" ++ b)%string
    ("/tmp/processed-" ++ b)%string w =
  (Ok tt, {| image_logs := image_logs w; storage := storage w;
             tmp := delete ("/tmp/processed-" ++ b)%string
                      (delete ("/tmp/thumbnail-" ++ b)%string
                         (delete ("/tmp/" ++ b)%string (tmp w)));
             exiftool_ended := S (exiftool_ended w);
             calls := calls w ++ [(Exiftool_end, true)] |}).
Proof.
  intros Hfile. destruct (derived_paths_are_files b) as [Hth Hpr].
  unfold finally_block, bind.
  rewrite !unlink_if_exists_eq by assumption. reflexivity.
Qed.

(** Otherwise it gives up on line 130, before anything is removed or shut
    down. *)
Lemma finally_block_directory t th pr w :
  is_directory t = true ->
  finally_block t th pr w = (Throw CleanupFailed, w).
Proof.
  intros Hdir. unfold finally_block, bind, unlink_if_exists.
  now rewrite Hdir.
Qed.

(** And the [try] block has failed at the download. *)
Lemma try_block_directory E f t pr th w :
  is_directory t = true ->
  try_block E f t pr th w =
  (Throw DownloadFailed,
   {| image_logs := image_logs w; storage := storage w; tmp := tmp w;
      exiftool_ended := exiftool_ended w;
      calls := calls w ++
        [(Bucket_download SOURCE_BUCKET (filePath_of f) t, false)] |}).
Proof.
  intros Hdir. unfold try_block, bind at 1. unfold bucket_download.
  now rewrite Hdir.
Qed.

(** Projections of the worlds and images built on the way. *)
Ltac fields :=
  cbn [image_logs storage tmp exiftool_ended calls input resize_to format
       sharp resize toFormat fst snd] in *.

(** Running a block symbolically: unfold the operations, then follow every
    branch. *)
Ltac run :=
  unfold try_block, bucket_download, bucket_upload, image_metadata,
    image_toFile, exiftool_read_file, firestore_add, firestore_get,
    exiftool_end, leave, set_tmp, record, bind, ret, throw, lift,
    try_catch, try_finally in *;
  fields.

Ltac branches := repeat (case_match; fields; simplify_eq).

(** The [try] block leaves the extractor alone, does not end in one of the
    early exits, and touches no local file but its three. *)
Lemma try_block_frame E f t pr th w r w1 :
  try_block E f t pr th w = (r, w1) ->
  exiftool_ended w1 = exiftool_ended w /\
  released_on r = true /\
  (forall p, p <> t -> p <> th -> p <> pr -> tmp w1 !! p = tmp w !! p).
Proof.
  intros H. run. branches.
  all: fields; split; [reflexivity|].
  all: split; [try reflexivity|].
  all: try (intros p ? ? ?; rewrite ?lookup_insert_ne by congruence;
            reflexivity).
  all: match goal with
       | H : makeFirestoreCompatible _ = Throw _ |- _ =>
           apply only_TypeError in H; now subst
       end.
Qed.

(** What the [try] block does to the collection, and in which order it
    calls. *)
Lemma try_block_record E f t pr th w r w1 :
  try_block E f t pr th w = (r, w1) ->
  exists new,
    calls w1 = calls w ++ new /\ scan false false new = true /\
    (forall e, r = Throw e -> image_logs w1 = image_logs w) /\
    (forall c, (c, false) ∈ new -> image_logs w1 = image_logs w) /\
    (image_logs w1 = image_logs w \/
     r = Ok Processed /\
     exists entry,
       image_logs w1 = image_logs w ++ [entry] /\
       fileName entry = f /\
       uploaded_to THUMBNAIL_BUCKET new /\
       uploaded_to PROCESSED_BUCKET new /\
       (Firestore_add entry, true) ∈ new).
Proof.
  intros H. run. branches.
  all: fields; rewrite <- ?app_assoc; cbn [app]; eexists;
    split; [reflexivity|].
  all: split; [reflexivity|].
  all: split; [intros ? [=]; reflexivity || discriminate|].
  all: split;
    [intros c Hin;
     first [ reflexivity
           | exfalso; repeat (apply elem_of_cons in Hin as [[=]|Hin]);
             now apply elem_of_nil in Hin ]|].
  all: try (left; reflexivity).
  all: right; split; [reflexivity|]; eexists; split; [reflexivity|].
  all: split; [reflexivity|].
  all: repeat split; try (eexists _, _); rewrite !elem_of_cons; eauto 12.
Qed.

Lemma string_length_app (a b : string) :
  String.length (a ++ b)%string = String.length a + String.length b.
Proof. induction a as [|c a IH]; simpl; [reflexivity|now rewrite IH]. Qed.

Lemma prefixed_ne (a b s : string) :
  String.length a <> String.length b -> (a ++ s)%string <> (b ++ s)%string.
Proof.
  intros Hlen Heq. apply (f_equal String.length) in Heq.
  rewrite !string_length_app in Heq. lia.
Qed.

(** The three temporary paths of an invocation never coincide. *)
Lemma temp_paths_distinct (b : string) :
  ("/tmp/" ++ b)%string <> ("/tmp/thumbnail-" ++ b)%string /\
  ("/tmp/" ++ b)%string <> ("/tmp/processed-" ++ b)%string /\
  ("/tmp/thumbnail-" ++ b)%string <> ("/tmp/processed-" ++ b)%string.
Proof.
  repeat split.
  - apply not_eq_sym, prefixed_ne. simpl. lia.
  - apply not_eq_sym, prefixed_ne. simpl. lia.
  - intros Heq. cbv beta iota delta [String.append] in Heq. congruence.
Qed.

Lemma or_else_same a : or_else a a = a.
Proof.
  destruct a as [s|]; [|reflexivity]. simpl. now destruct (String.eqb s "").
Qed.

Lemma try_catch_rethrow {A} (body : M A) w :
  try_catch body (fun error => throw error) w = body w.
Proof. unfold try_catch, throw. now destruct (body w) as [[a|e] w1]. Qed.

(** Past line 51 the handler runs on the key itself. *)
Lemma processImage_keyed E ev w key :
  name ev = Some key -> key <> "" ->
  processImage E ev w =
  (existingLog <- firestore_get E key ;;
   if negb (bool_decide (existingLog = [])) then ret Skipped else
   try_finally
     (try_catch
        (try_block E key ("/tmp/" ++ split_pop key)%string
           ("/tmp/processed-" ++ split_pop key)%string
           ("/tmp/thumbnail-" ++ split_pop key)%string)
        (fun error => throw error))
     (finally_block ("/tmp/" ++ split_pop key)%string
        ("/tmp/thumbnail-" ++ split_pop key)%string
        ("/tmp/processed-" ++ split_pop key)%string)) w.
Proof.
  intros Hname Hkey. unfold processImage. rewrite or_else_same, Hname.
  simpl. apply String.eqb_neq in Hkey. now rewrite Hkey.
Qed.

Lemma processImage_unkeyed E ev w :
  falsy (name ev) = true -> processImage E ev w = (Throw InvalidEvent, w).
Proof.
  intros Hf. unfold processImage. rewrite or_else_same, Hf. reflexivity.
Qed.

Lemma falsy_cases a :
  falsy a = true \/ exists key, a = Some key /\ key <> "".
Proof.
  destruct a as [s|]; [|now left]. simpl.
  destruct (String.eqb_spec s ""); [now left|right; eauto].
Qed.

Lemma deleted_thrice (m m1 : gmap string bytes) t th pr :
  (forall p, p <> t -> p <> th -> p <> pr -> m1 !! p = m !! p) ->
  delete pr (delete th (delete t m1)) = delete pr (delete th (delete t m)).
Proof.
  intros Hframe. apply map_eq. intros p.
  destruct (decide (pr = p)) as [->|?]; [now rewrite !lookup_delete_eq|].
  rewrite !(lookup_delete_ne _ pr) by assumption.
  destruct (decide (th = p)) as [->|?]; [now rewrite !lookup_delete_eq|].
  rewrite !(lookup_delete_ne _ th) by assumption.
  destruct (decide (t = p)) as [->|?]; [now rewrite !lookup_delete_eq|].
  rewrite !(lookup_delete_ne _ t) by assumption.
  apply Hframe; congruence.
Qed.

Lemma deleted_thrice_subseteq (m : gmap string bytes) t th pr :
  delete pr (delete th (delete t m)) ⊆ m.
Proof.
  etransitivity; [apply delete_subseteq|].
  etransitivity; apply delete_subseteq.
Qed.

Lemma found_not_empty (logs : list logEntry) key d :
  d ∈ logs -> fileName d = key ->
  take 1 (filter (fun d => fileName d = key) logs) <> [].
Proof.
  intros Hin Hd.
  assert (d ∈ filter (fun d => fileName d = key) logs) as Hf
    by now apply list_elem_of_filter.
  destruct (filter _ logs); [inversion Hf | discriminate].
Qed.

Lemma not_found_empty (logs : list logEntry) key :
  (forall d, d ∈ logs -> fileName d <> key) ->
  take 1 (filter (fun d => fileName d = key) logs) = [].
Proof.
  intros Hno. destruct (filter _ logs) as [|d l] eqn:Hf; [reflexivity|].
  assert (d ∈ filter (fun d => fileName d = key) logs) as Hin
    by (rewrite Hf; left).
  apply list_elem_of_filter in Hin as [Hd Hin]. now destruct (Hno d Hin).
Qed.

Lemma buckets_distinct :
  SOURCE_BUCKET <> THUMBNAIL_BUCKET /\ SOURCE_BUCKET <> PROCESSED_BUCKET /\
  THUMBNAIL_BUCKET <> PROCESSED_BUCKET.
Proof. repeat split; discriminate. Qed.

(** The run of the [try] block that reaches its end. *)
Lemma try_block_processed E f t pr th w w1 :
  t <> th -> t <> pr -> th <> pr ->
  try_block E f t pr th w = (Ok Processed, w1) ->
  exists content meta thumb tags norm jpeg objsT objsP,
    let image := resize (sharp t) 200 200 in
    let entry :=
      {| fileName := f; sourceBucket := SOURCE_BUCKET;
         thumbnailBucket := THUMBNAIL_BUCKET;
         processedBucket := PROCESSED_BUCKET;
         basicMetadata := meta; fullMetadata := norm;
         timestamp := now E |} in
    let tdest := ("thumbnail-" ++ split_pop f)%string in
    let pdest := ("processed-" ++ split_pop f)%string in
    object_at w SOURCE_BUCKET (filePath_of f) = Some content /\
    sharp_metadata E content = Some meta /\
    sharp_toFile E image content = Written thumb /\
    exiftool_read E content = Some tags /\
    makeFirestoreCompatible tags = Ok norm /\
    sharp_toFile E (toFormat image "jpeg") content = Written jpeg /\
    storage w !! THUMBNAIL_BUCKET = Some objsT /\
    storage w !! PROCESSED_BUCKET = Some objsP /\
    storage w1 =
      <[PROCESSED_BUCKET := <[pdest := jpeg]> objsP]>
        (<[THUMBNAIL_BUCKET := <[tdest := thumb]> objsT]> (storage w)) /\
    image_logs w1 = image_logs w ++ [entry] /\
    calls w1 = calls w ++
      [(Bucket_download SOURCE_BUCKET (filePath_of f) t, true);
       (Sharp_metadata t, true);
       (Sharp_toFile image th, true);
       (Exiftool_read t, true);
       (Bucket_upload THUMBNAIL_BUCKET th tdest, true);
       (Sharp_toFile (toFormat image "jpeg") pr, true);
       (Bucket_upload PROCESSED_BUCKET pr pdest, true);
       (Firestore_add entry, true)].
Proof.
  intros Htth Htpr Hthpr H.
  destruct buckets_distinct as (_ & _ & HTP).
  run. branches.
  all: simplify_map_eq.
  all: rewrite <- ?app_assoc; cbn [app].
  all: unfold filePath_of;
    match goal with H : startsWith_slash _ = _ |- _ => rewrite H end.
  all: do 8 eexists; cbv zeta; repeat split; eauto.
Qed.

(** The invocation that ends as processed. *)
Lemma processImage_processed E ev w w' :
  processImage E ev w = (Ok Processed, w') ->
  exists key content thumb jpeg objsT objsP entry,
    let image := resize (sharp ("/tmp/" ++ split_pop key)%string) 200 200 in
    let tdest := ("thumbnail-" ++ split_pop key)%string in
    let pdest := ("processed-" ++ split_pop key)%string in
    name ev = Some key /\ fileName entry = key /\
    object_at w SOURCE_BUCKET (filePath_of key) = Some content /\
    sharp_toFile E image content = Written thumb /\
    sharp_toFile E (toFormat image "jpeg") content = Written jpeg /\
    storage w !! THUMBNAIL_BUCKET = Some objsT /\
    storage w !! PROCESSED_BUCKET = Some objsP /\
    storage w' =
      <[PROCESSED_BUCKET := <[pdest := jpeg]> objsP]>
        (<[THUMBNAIL_BUCKET := <[tdest := thumb]> objsT]> (storage w)) /\
    image_logs w' = image_logs w ++ [entry] /\
    calls w' = calls w ++ success_trace key entry.
Proof.
  intros Hrun.
  destruct (falsy_cases (name ev)) as [Hf|(key & Hname & Hkey)].
  { rewrite processImage_unkeyed in Hrun by assumption. discriminate. }
  rewrite (processImage_keyed E ev w key) in Hrun by assumption.
  unfold bind, firestore_get in Hrun. destruct (get_fault E); [discriminate|].
  cbn [record bind ret throw fst snd] in Hrun.
  destruct (negb _); [discriminate|].
  unfold try_finally in Hrun. rewrite try_catch_rethrow in Hrun.
  destruct (try_block _ _ _ _ _ _) as [r w1] eqn:Hblock.
  destruct (is_directory ("/tmp/" ++ split_pop key)%string) eqn:Hdir.
  { now rewrite finally_block_directory in Hrun. }
  rewrite finally_block_eq in Hrun by assumption. injection Hrun as -> <-.
  destruct (temp_paths_distinct (split_pop key)) as (Hth & Hpr & Hthpr).
  apply try_block_processed in Hblock
    as (content & meta & thumb & tags & norm & jpeg & objsT & objsP
        & Hsrc & _ & Hthumb & _ & _ & Hjpeg & HT & HP & Hst & Hlogs & Hcalls);
    try assumption.
  cbn [image_logs storage tmp exiftool_ended calls] in *.
  exists key, content, thumb, jpeg, objsT, objsP,
    {| fileName := key; sourceBucket := SOURCE_BUCKET;
       thumbnailBucket := THUMBNAIL_BUCKET;
       processedBucket := PROCESSED_BUCKET;
       basicMetadata := meta; fullMetadata := norm; timestamp := now E |}.
  cbv zeta. split; [exact Hname|]. split; [reflexivity|].
  repeat (split; [assumption|]).
  rewrite Hcalls, <- !app_assoc. reflexivity.
Qed.

(** A key that ends in a slash, as the placeholder object of a folder
    does: the local path is the directory [/tmp/], the download fails, and
    line 130 throws before line 135 is reached. *)
Lemma folder_key_gives_up :
  processImage sample_env {| name := Some "photos/"%string |} sample_world =
  (Throw CleanupFailed,
   {| image_logs := []; storage := storage sample_world; tmp := ∅;
      exiftool_ended := 0;
      calls :=
        [(Firestore_get "photos/"%string, true);
         (Bucket_download SOURCE_BUCKET "photos/"%string "/tmp/"%string,
          false)] |}).
Proof. reflexivity. Qed.

(** *** The type gate *)

Lemma ends_with_spec suffix s :
  ends_with suffix s = true <-> exists stem, s = (stem ++ suffix)%string.
Proof.
  induction s as [|c s IH]; cbn [ends_with].
  - rewrite orb_false_r, String.eqb_eq. split.
    + intros <-. now exists ""%string.
    + intros [[|c stem] Heq]; [exact Heq | discriminate].
  - rewrite orb_true_iff, String.eqb_eq, IH. split.
    + intros [<-|[stem ->]]; [now exists ""%string|].
      now exists (String c stem).
    + intros [[|c' stem] Heq]; [now left|].
      right. injection Heq as -> ->. now exists stem.
Qed.

Lemma append_nil_l (b : string) : ("" ++ b)%string = b.
Proof. reflexivity. Qed.

Lemma append_cons c (a b : string) :
  (String c a ++ b)%string = String c (a ++ b)%string.
Proof. reflexivity. Qed.

Lemma fold_string_app a b :
  fold_string (a ++ b) = (fold_string a ++ fold_string b)%string.
Proof.
  induction a as [|c a IH]; [reflexivity|].
  rewrite append_cons. cbn [fold_string]. now rewrite IH, append_cons.
Qed.

Lemma fold_string_split s : forall a b,
  fold_string s = (a ++ b)%string ->
  exists a' b',
    s = (a' ++ b')%string /\ fold_string a' = a /\ fold_string b' = b.
Proof.
  induction s as [|c s IH]; intros a b Heq.
  - destruct a; [|discriminate]. rewrite append_nil_l in Heq. subst b.
    now exists ""%string, ""%string.
  - destruct a as [|c' a].
    + rewrite append_nil_l in Heq. subst b. now exists ""%string, (String c s).
    + rewrite append_cons in Heq. cbn [fold_string] in Heq.
      injection Heq as <- Heq. apply IH in Heq as (a' & b' & -> & <- & <-).
      now exists (String c a'), b'.
Qed.

Lemma fold_case_dot c : fold_case c = "."%char -> c = "."%char.
Proof.
  destruct c as [[] [] [] [] [] [] [] []]; vm_compute; congruence.
Qed.

(** The pattern matches exactly the keys with an accepted suffix. *)
Lemma match_image_spec key : match_image key = true <-> has_image_suffix key.
Proof.
  unfold match_image, has_image_suffix. rewrite existsb_exists. split.
  - intros (ext & Hin & Hends). apply ends_with_spec in Hends as [stem Heq].
    apply fold_string_split in Heq as (a & b & -> & _ & Hb).
    destruct b as [|c b]; [discriminate|]. injection Hb as Hc Hb.
    apply fold_case_dot in Hc as ->.
    exists a, b. split; [reflexivity|]. rewrite Hb. now apply list_elem_of_In.
  - intros (stem & ext & -> & Hin).
    exists (fold_string ext). split; [now apply list_elem_of_In|].
    apply ends_with_spec. exists (fold_string stem).
    now rewrite !fold_string_app.
Qed.

End Handler.

(* ===================================================================== *)
(** ** The properties of the specification                                 *)
(* ===================================================================== *)

Section Claims.

Open Scope list_scope.

(** *** The normalizer *)







(** C3, evaluated on [{ Hash: Buffer.from([0xde, 0xad, 0xbe, 0xef]) }].  A
    Buffer has a [toString], so line 26 stores its UTF-8 text and line 29 is
    not reached; that text is not the base64 of the bytes and does not
    decode to them, although base64 itself round-trips.  Line 29 is reached
    only where [toString] is not a function, and there the call throws. *)
Theorem binary_member_not_base64 :
  makeFirestoreCompatible hash_sample
    = Ok (plain [("Hash"%string, VString (Utf8.utf8Slice hash_bytes))]) /\
  Utf8.utf8Slice hash_bytes <> Base64.encode hash_bytes /\
  Base64.decode (Utf8.utf8Slice hash_bytes) <> Some hash_bytes /\
  Base64.decode (Base64.encode hash_bytes) = Some hash_bytes /\
  (forall o, is_function (toString o) = false ->
             call_toString o (Some Enc_base64) = Throw TypeError).
Proof.
  split; [reflexivity|].
  split; [vm_compute; discriminate|].
  split; [vm_compute; discriminate|].
  split; [apply decode_encode | apply binary_branch_throws].
Qed.




(** *** The handler *)

(** C5, as the code has it.  After an invocation no temporary file is left
    that was not there before.  The extractor is released once where line
    135 is reached, and there the three temporary paths of the key end up
    absent; it is not released at all on the exits before the [try]
    statement: a missing key, a failed lookup, a key already recorded.  For
    a key whose last segment names a file these are the only exits without
    a release. *)
Theorem cleanup_on_exit E ev w :
  tmp (processImage E ev w).2 ⊆ tmp w /\
  exiftool_ended (processImage E ev w).2 =
    exiftool_ended w + (if released_on (processImage E ev w).1 then 1 else 0) /\
  (forall key,
      name ev = Some key -> released_on (processImage E ev w).1 = true ->
      let left := tmp (processImage E ev w).2 in
      left !! ("/tmp/" ++ split_pop key)%string = None /\
      left !! ("/tmp/thumbnail-" ++ split_pop key)%string = None /\
      left !! ("/tmp/processed-" ++ split_pop key)%string = None) /\
  (forall key,
      name ev = Some key ->
      is_directory ("/tmp/" ++ split_pop key)%string = false ->
      released_on (processImage E ev w).1 = false ->
      (processImage E ev w).1 = Throw QueryFailed \/
      (processImage E ev w).1 = Ok Skipped).
Proof.
  destruct (falsy_cases (name ev)) as [Hf|(key & Hname & Hkey)].
  - rewrite processImage_unkeyed by assumption. simpl.
    split; [reflexivity|]. split; [lia|].
    split; [intros ? ? [=]|]. intros key Hname. rewrite Hname in Hf.
    simpl in Hf. apply String.eqb_eq in Hf as ->. discriminate.
  - rewrite (processImage_keyed E ev w key) by assumption.
    unfold bind, firestore_get. destruct (get_fault E).
    { simpl. split; [reflexivity|]. split; [lia|].
      split; [intros ? ? [=]|]. auto. }
    cbn [record bind ret throw fst snd].
    destruct (negb _).
    { simpl. split; [reflexivity|]. split; [lia|].
      split; [intros ? ? [=]|]. auto. }
    unfold try_finally. rewrite try_catch_rethrow.
    destruct (is_directory ("/tmp/" ++ split_pop key)%string) eqn:Hdir.
    { rewrite try_block_directory, finally_block_directory by assumption.
      simpl. split; [reflexivity|]. split; [lia|].
      split; [intros ? ? [=]|]. intros key' Hname'.
      rewrite Hname in Hname'. injection Hname' as <-. congruence. }
    destruct (try_block _ _ _ _ _ _) as [r w1] eqn:Hrun.
    apply try_block_frame in Hrun as (Hended & Hrel & Hframe).
    rewrite finally_block_eq by assumption. cbn [fst snd tmp exiftool_ended].
    rewrite Hrel, Hended. cbn [tmp exiftool_ended calls] in *.
    rewrite (deleted_thrice (tmp w)) by assumption.
    split; [apply deleted_thrice_subseteq|].
    split; [lia|].
    split; [|intros ? ? ? [=]].
    intros key' Hname' _. rewrite Hname in Hname'. injection Hname' as <-.
    destruct (temp_paths_distinct (split_pop key)) as (Hth & Hpr & Hthpr).
    cbv zeta. repeat split.
    + rewrite lookup_delete_ne, lookup_delete_ne, lookup_delete_eq; auto.
    + rewrite lookup_delete_ne, lookup_delete_eq; auto.
    + now rewrite lookup_delete_eq.
Qed.

(** C5, as it is worded, fails: on a skipped key and on a missing key the
    handler returns without releasing the extractor. *)
Lemma early_exits_release_nothing :
  (processImage sample_env {| name := Some "a/x.jpg"%string |} logged_world).1
    = Ok Skipped /\
  exiftool_ended
    (processImage sample_env {| name := Some "a/x.jpg"%string |} logged_world).2
    = exiftool_ended logged_world /\
  (processImage sample_env {| name := None |} sample_world).1
    = Throw InvalidEvent /\
  exiftool_ended (processImage sample_env {| name := None |} sample_world).2
    = exiftool_ended sample_world.
Proof. repeat split; vm_compute; reflexivity. Qed.

(** C6.  When the lookup answers and finds a record of the key, the handler
    returns on line 61: no error, and the lookup is the only call made;
    the buckets, the collection, the local files and the extractor are as
    they were. *)
Theorem recorded_key_skipped E ev w key d i :
  name ev = Some key -> key <> "" ->
  get_fault E = false ->
  image_logs w !! i = Some d -> fileName d = key ->
  processImage E ev w =
  (Ok Skipped,
   {| image_logs := image_logs w; storage := storage w; tmp := tmp w;
      exiftool_ended := exiftool_ended w;
      calls := calls w ++ [(Firestore_get key, true)] |}).
Proof.
  intros Hname Hkey Hget Hi Hd.
  assert (d ∈ image_logs w) as Hin by (apply list_elem_of_lookup; eauto).
  rewrite (processImage_keyed E ev w key) by assumption.
  unfold bind, firestore_get. rewrite Hget.
  cbn [record bind ret fst snd image_logs].
  rewrite bool_decide_eq_false_2 by (eapply found_not_empty; eassumption).
  reflexivity.
Qed.

Lemma recorded_key_skipped_witness :
  processImage sample_env {| name := Some "a/x.jpg"%string |} logged_world =
  (Ok Skipped,
   {| image_logs := image_logs logged_world; storage := storage logged_world;
      tmp := tmp logged_world;
      exiftool_ended := exiftool_ended logged_world;
      calls :=
        calls logged_world ++ [(Firestore_get "a/x.jpg"%string, true)] |}).
Proof.
  apply (recorded_key_skipped sample_env _ logged_world _ sample_entry 0);
    [reflexivity | discriminate | reflexivity | reflexivity | reflexivity].
Defined.



(** C8.  In every invocation an insert into [image_logs] is attempted only
    after an upload to the thumbnail bucket and one to the processed bucket
    have succeeded; an invocation that ends in an error, or in which any
    call has failed, leaves the collection as it was; and the collection
    either is unchanged or has gained the one whole record of a processed
    key. *)
Theorem record_written_last E ev w :
  exists new,
    calls (processImage E ev w).2 = calls w ++ new /\
    inserts_follow_uploads new /\
    (forall e, (processImage E ev w).1 = Throw e ->
               image_logs (processImage E ev w).2 = image_logs w) /\
    (forall c, (c, false) ∈ new ->
               image_logs (processImage E ev w).2 = image_logs w) /\
    (image_logs (processImage E ev w).2 = image_logs w \/
     (processImage E ev w).1 = Ok Processed /\
     exists entry,
       image_logs (processImage E ev w).2 = image_logs w ++ [entry] /\
       name ev = Some (fileName entry) /\
       uploaded_to THUMBNAIL_BUCKET new /\
       uploaded_to PROCESSED_BUCKET new /\
       (Firestore_add entry, true) ∈ new).
Proof.
  destruct (falsy_cases (name ev)) as [Hf|(key & Hname & Hkey)].
  - rewrite processImage_unkeyed by assumption. exists []. simpl.
    rewrite app_nil_r. split; [reflexivity|].
    split; [now apply scan_inserts_follow_uploads|]. auto.
  - rewrite (processImage_keyed E ev w key) by assumption.
    unfold bind, firestore_get. destruct (get_fault E).
    { eexists. simpl. split; [reflexivity|].
      split; [now apply scan_inserts_follow_uploads|]. auto. }
    cbn [record bind ret throw fst snd].
    destruct (negb _).
    { eexists. simpl. split; [reflexivity|].
      split; [now apply scan_inserts_follow_uploads|]. auto. }
    unfold try_finally. rewrite try_catch_rethrow.
    destruct (is_directory ("/tmp/" ++ split_pop key)%string) eqn:Hdir.
    { rewrite try_block_directory, finally_block_directory by assumption.
      eexists. cbn [fst snd image_logs calls].
      split; [rewrite <- app_assoc; reflexivity|].
      split; [now apply scan_inserts_follow_uploads|]. auto. }
    destruct (try_block _ _ _ _ _ _) as [r w1] eqn:Hrun.
    apply try_block_record in Hrun
      as (new & Hcalls & Hscan & Hthrow & Hfail & Hlogs).
    rewrite finally_block_eq by assumption.
    cbn [fst snd image_logs calls] in *.
    exists ((Firestore_get key, true) :: new ++ [(Exiftool_end, true)]).
    split; [rewrite Hcalls, <- !app_assoc; reflexivity|].
    split; [now apply scan_inserts_follow_uploads, scan_framed|].
    split; [exact Hthrow|].
    split.
    { intros c Hin. apply (Hfail c).
      apply elem_of_cons in Hin as [[=]|Hin].
      apply elem_of_app in Hin as [Hin|Hin]; [exact Hin|].
      now apply list_elem_of_singleton in Hin. }
    destruct Hlogs as [Hlogs|(-> & entry & Hlogs & Hf & HT & HP & HA)];
      [now left|right].
    split; [reflexivity|]. exists entry. rewrite Hf.
    repeat split; try assumption.
    + apply uploaded_to_cons. destruct HT as (p & d & HT).
      exists p, d. apply elem_of_app. now left.
    + apply uploaded_to_cons. destruct HP as (p & d & HP).
      exists p, d. apply elem_of_app. now left.
    + right. apply elem_of_app. now left.
Qed.

(** C9.  With the key absent or empty the handler throws on line 50 and the
    world is untouched: no call on any collaborator. *)
Theorem missing_key_invalid_event E ev w :
  name ev = None \/ name ev = Some "" ->
  processImage E ev w = (Throw InvalidEvent, w).
Proof.
  intros [H|H]; apply processImage_unkeyed; now rewrite H.
Qed.

Lemma missing_key_invalid_event_witness :
  processImage sample_env {| name := Some ""%string |} sample_world
  = (Throw InvalidEvent, sample_world).
Proof.
  apply (missing_key_invalid_event sample_env _ sample_world).
  right. reflexivity.
Defined.



End Claims.

(* ===================================================================== *)
(** ** The handler, step by step                                           *)
(* ===================================================================== *)

(** How far a run has got: the conditions met so far, one by one. *)
Ltac stages :=
  unfold processed_published, reencoded, thumbnail_published, converted,
    extracted, resized, measured, downloaded in *;
  destruct_and?.

(** The fields of the worlds built on the way. *)
Ltac worlds :=
  cbn [image_logs storage tmp exiftool_ended calls called stored published
       logged cleaned left_behind at_gate at_resize at_extraction at_upload
       at_reencoding at_second_upload at_insert] in *.

(** What a failed write has left, or not. *)
Ltac leftovers :=
  repeat match goal with
         | |- context [left_behind _ ?o _] => destruct o; cbn [left_behind]
         end.

(** Two results of the same observation are the same. *)
Ltac same :=
  repeat match goal with
         | H1 : ?x = _, H2 : ?x = _ |- _ => rewrite H1 in H2; simplify_eq
         end.

Section Steps.

Open Scope list_scope.

Lemma bind_ok {A B} (m : M A) (k : A -> M B) w a w1 :
  m w = (Ok a, w1) -> bind m k w = k a w1.
Proof. intros H. unfold bind. now rewrite H. Qed.

Lemma bind_throw {A B} (m : M A) (k : A -> M B) w e w1 :
  m w = (Throw e, w1) -> bind m k w = (Throw e, w1).
Proof. intros H. unfold bind. now rewrite H. Qed.

Lemma bucket_download_refused E b fp dest w :
  is_directory dest = true ->
  bucket_download E b fp dest w =
  (Throw DownloadFailed, called (Bucket_download b fp dest) false w).
Proof. intros Hd. unfold bucket_download. now rewrite Hd. Qed.

Lemma bucket_download_failed E b fp dest w :
  is_directory dest = false ->
  download_fault E = true \/ object_at w b fp = None ->
  bucket_download E b fp dest w =
  (Throw DownloadFailed,
   left_behind dest (download_left E)
     (called (Bucket_download b fp dest) false w)).
Proof.
  intros Hd Hf. unfold bucket_download. rewrite Hd.
  assert ((if download_fault E then None else object_at w b fp) = None) as ->
    by (destruct Hf as [-> | ->];
        [reflexivity | now destruct (download_fault E)]).
  unfold left_behind, leave. now destruct (download_left E).
Qed.

Lemma bucket_download_ok E b fp dest w content :
  is_directory dest = false -> download_fault E = false ->
  object_at w b fp = Some content ->
  bucket_download E b fp dest w =
  (Ok tt, stored dest content (called (Bucket_download b fp dest) true w)).
Proof.
  intros Hd Hf Ho. unfold bucket_download. now rewrite Hd, Hf, Ho.
Qed.

Lemma image_metadata_ok E image w content meta :
  tmp w !! input image = Some content ->
  sharp_metadata E content = Some meta ->
  image_metadata E image w =
  (Ok meta, called (Sharp_metadata (input image)) true w).
Proof.
  intros Ht Hm. unfold image_metadata. rewrite Ht. cbn [mbind option_bind].
  now rewrite Hm.
Qed.

Lemma image_metadata_failed E image w content :
  tmp w !! input image = Some content ->
  sharp_metadata E content = None ->
  image_metadata E image w =
  (Throw DerivationFailed, called (Sharp_metadata (input image)) false w).
Proof.
  intros Ht Hm. unfold image_metadata. rewrite Ht. cbn [mbind option_bind].
  now rewrite Hm.
Qed.

Lemma image_toFile_ok E image dest w content out :
  tmp w !! input image = Some content ->
  sharp_toFile E image content = Written out ->
  image_toFile E image dest w =
  (Ok tt, stored dest out (called (Sharp_toFile image dest) true w)).
Proof.
  intros Ht Hm. unfold image_toFile. rewrite Ht.
  cbn [fmap option_fmap option_map]. now rewrite Hm.
Qed.

Lemma image_toFile_failed E image dest w content leftover :
  tmp w !! input image = Some content ->
  sharp_toFile E image content = Aborted leftover ->
  image_toFile E image dest w =
  (Throw DerivationFailed,
   left_behind dest leftover (called (Sharp_toFile image dest) false w)).
Proof.
  intros Ht Hm. unfold image_toFile. rewrite Ht.
  cbn [fmap option_fmap option_map]. rewrite Hm.
  unfold left_behind, leave. now destruct leftover.
Qed.

Lemma exiftool_read_file_ok E path w content tags :
  tmp w !! path = Some content ->
  exiftool_read E content = Some tags ->
  exiftool_read_file E path w = (Ok tags, called (Exiftool_read path) true w).
Proof.
  intros Ht Hm. unfold exiftool_read_file. rewrite Ht.
  cbn [mbind option_bind]. now rewrite Hm.
Qed.

Lemma exiftool_read_file_failed E path w content :
  tmp w !! path = Some content ->
  exiftool_read E content = None ->
  exiftool_read_file E path w =
  (Throw ExtractionFailed, called (Exiftool_read path) false w).
Proof.
  intros Ht Hm. unfold exiftool_read_file. rewrite Ht.
  cbn [mbind option_bind]. now rewrite Hm.
Qed.

Lemma bucket_upload_ok E b path dest w content objs :
  upload_fault E b = false -> tmp w !! path = Some content ->
  storage w !! b = Some objs ->
  bucket_upload E b path dest w =
  (Ok tt,
   published b dest content objs (called (Bucket_upload b path dest) true w)).
Proof.
  intros Hf Ht Hs. unfold bucket_upload. now rewrite Hf, Ht, Hs.
Qed.

Lemma bucket_upload_failed E b path dest w :
  upload_fault E b = true \/ storage w !! b = None ->
  bucket_upload E b path dest w =
  (Throw UploadFailed, called (Bucket_upload b path dest) false w).
Proof.
  intros Hf. unfold bucket_upload.
  destruct Hf as [-> | ->]; [reflexivity|].
  now destruct (if upload_fault E b then None else tmp w !! path).
Qed.

Lemma firestore_add_ok E entry w :
  add_fault E = false ->
  firestore_add E entry w =
  (Ok tt, logged entry (called (Firestore_add entry) true w)).
Proof. intros Hf. unfold firestore_add. now rewrite Hf. Qed.

Lemma firestore_add_failed E entry w :
  add_fault E = true ->
  firestore_add E entry w =
  (Throw PersistFailed, called (Firestore_add entry) false w).
Proof. intros Hf. unfold firestore_add. now rewrite Hf. Qed.

(** The local files and the buckets on the way. *)
Lemma at_gate_tmp f t w content :
  tmp (at_gate f t w content) !! t = Some content.
Proof. apply lookup_insert_eq. Qed.

Lemma at_extraction_tmp f t th w content thumb :
  t <> th ->
  tmp (at_extraction f t th w content thumb) !! t = Some content /\
  tmp (at_extraction f t th w content thumb) !! th = Some thumb.
Proof.
  intros Hne. split; [|apply lookup_insert_eq].
  cbn [tmp at_extraction stored called at_resize].
  rewrite lookup_insert_ne by auto. apply at_gate_tmp.
Qed.

Lemma at_reencoding_storage f t th w content thumb objsT :
  storage (at_reencoding f t th w content thumb objsT) !! PROCESSED_BUCKET =
  storage w !! PROCESSED_BUCKET.
Proof.
  cbn [storage at_reencoding published]. now rewrite lookup_insert_ne.
Qed.

Lemma at_second_upload_tmp f t pr th w content thumb objsT jpeg :
  tmp (at_second_upload f t pr th w content thumb objsT jpeg) !! pr
  = Some jpeg.
Proof. apply lookup_insert_eq. Qed.

(** Every run of the [try] block is one of the twelve. *)
Lemma try_block_run E f t pr th w :
  t <> th -> t <> pr -> th <> pr ->
  block_run E f t pr th w (try_block E f t pr th w).
Proof.
  intros Htth Htpr Hthpr. unfold try_block. fold (filePath_of f).
  change (Bucket_download SOURCE_BUCKET (filePath_of f) t)
    with (the_download f t).
  destruct (is_directory t) eqn:Hdir.
  { erewrite bind_throw by now apply bucket_download_refused.
    now constructor. }
  destruct (download_fault E) eqn:Hfault.
  { erewrite bind_throw by (apply bucket_download_failed; auto).
    constructor; auto. }
  destruct (object_at w SOURCE_BUCKET (filePath_of f)) as [content|] eqn:Hobj.
  2: { erewrite bind_throw by (apply bucket_download_failed; auto).
       constructor; auto. }
  assert (downloaded E f t w content) as H1 by easy.
  erewrite bind_ok by (eapply bucket_download_ok; eassumption).
  fold (at_gate f t w content).
  destruct (match_image f) eqn:Hgate; cbn [negb];
    [|now apply Type_rejected].
  pose proof (at_gate_tmp f t w content) as Ht0.
  destruct (sharp_metadata E content) as [meta|] eqn:Hmeta.
  2: { erewrite bind_throw by (eapply image_metadata_failed; eassumption).
       now apply Metadata_failed. }
  assert (measured E f t w content meta) as H2 by easy.
  erewrite bind_ok by (eapply image_metadata_ok; eassumption).
  cbn [input sharp]. fold (at_resize f t w content).
  fold (thumbnail_image t).
  destruct (sharp_toFile E (thumbnail_image t) content)
    as [thumb|leftover] eqn:Hthumb.
  2: { erewrite bind_throw by (eapply image_toFile_failed; eassumption).
       now apply (Resize_failed E f t pr th w content meta). }
  assert (resized E f t w content meta thumb) as H3 by easy.
  erewrite bind_ok by (eapply image_toFile_ok; eassumption).
  fold (at_extraction f t th w content thumb).
  destruct (at_extraction_tmp f t th w content thumb Htth) as [Ht1 Hth1].
  destruct (exiftool_read E content) as [tags|] eqn:Hexif.
  2: { erewrite bind_throw by (eapply exiftool_read_file_failed; eassumption).
       now apply (Extraction_failed E f t pr th w content meta). }
  assert (extracted E f t w content meta thumb tags) as H4 by easy.
  erewrite bind_ok by (eapply exiftool_read_file_ok; eassumption).
  fold (at_upload f t th w content thumb).
  destruct (makeFirestoreCompatible tags) as [norm|e] eqn:Hnorm.
  2: { pose proof (only_TypeError _ _ Hnorm) as ->.
       erewrite bind_throw by reflexivity.
       now apply (Conversion_failed E f t pr th w content meta thumb tags). }
  assert (converted E f t w content meta thumb tags norm) as H5 by easy.
  erewrite bind_ok by reflexivity.
  change (Bucket_upload THUMBNAIL_BUCKET th
            ("thumbnail-" ++ split_pop f)%string)
    with (the_thumbnail_upload f th).
  destruct (upload_fault E THUMBNAIL_BUCKET) eqn:HupT.
  { erewrite bind_throw by (apply bucket_upload_failed; auto).
    apply (Thumbnail_upload_failed E f t pr th w content meta thumb tags norm);
      auto. }
  destruct (storage w !! THUMBNAIL_BUCKET) as [objsT|] eqn:HT.
  2: { erewrite bind_throw by (apply bucket_upload_failed; auto).
       apply (Thumbnail_upload_failed E f t pr th w content meta thumb tags
                norm); auto. }
  assert (thumbnail_published E f t w content meta thumb tags norm objsT)
    as H6 by easy.
  erewrite bind_ok by (eapply bucket_upload_ok; eassumption).
  fold (at_reencoding f t th w content thumb objsT).
  fold (jpeg_image t).
  destruct (sharp_toFile E (jpeg_image t) content)
    as [jpeg|leftover] eqn:Hjpeg.
  2: { erewrite bind_throw by (eapply image_toFile_failed; eassumption).
       now apply (Reencoding_failed E f t pr th w content meta thumb tags
                    norm objsT). }
  assert (reencoded E f t w content meta thumb tags norm objsT jpeg)
    as H7 by easy.
  erewrite bind_ok by (eapply image_toFile_ok; eassumption).
  fold (at_second_upload f t pr th w content thumb objsT jpeg).
  pose proof (at_second_upload_tmp f t pr th w content thumb objsT jpeg)
    as Hpr1.
  pose proof (at_reencoding_storage f t th w content thumb objsT) as HP1.
  change (Bucket_upload PROCESSED_BUCKET pr
            ("processed-" ++ split_pop f)%string)
    with (the_processed_upload f pr).
  destruct (upload_fault E PROCESSED_BUCKET) eqn:HupP.
  { erewrite bind_throw by (apply bucket_upload_failed; auto).
    apply (Processed_upload_failed E f t pr th w content meta thumb tags norm
             objsT jpeg); auto. }
  destruct (storage w !! PROCESSED_BUCKET) as [objsP|] eqn:HP.
  2: { erewrite bind_throw by (apply bucket_upload_failed; auto).
       apply (Processed_upload_failed E f t pr th w content meta thumb tags
                norm objsT jpeg); auto. }
  assert (processed_published E f t w content meta thumb tags norm objsT jpeg
            objsP) as H8 by easy.
  erewrite bind_ok by (eapply bucket_upload_ok; eassumption).
  fold (at_insert f t pr th w content thumb objsT jpeg objsP).
  fold (entry_of E f meta norm).
  destruct (add_fault E) eqn:Hadd.
  { erewrite bind_throw by now apply firestore_add_failed.
    now apply (Insert_failed E f t pr th w content meta thumb tags norm objsT
                 jpeg objsP). }
  erewrite bind_ok by now apply firestore_add_ok.
  now apply (Block_completed E f t pr th w content meta thumb tags norm objsT
               jpeg objsP).
Qed.

End Steps.

(* ===================================================================== *)
(** ** What every run has                                                  *)
(* ===================================================================== *)

Section Runs.

Open Scope list_scope.

Lemma logs_decide (logs : list logEntry) key :
  (exists d, d ∈ logs /\ fileName d = key) \/
  (forall d, d ∈ logs -> fileName d <> key).
Proof.
  induction logs as [|d logs [(d' & Hin & Hd)|Hno]].
  - right. intros d Hin. inversion Hin.
  - left. exists d'. split; [now right | exact Hd].
  - destruct (decide (fileName d = key)) as [Hd|Hd].
    + left. exists d. split; [left | exact Hd].
    + right. intros d' [->|Hin]%elem_of_cons; auto.
Qed.

(** Every invocation takes one of the five ways. *)
Lemma processImage_invocation E ev w : invocation E ev w (processImage E ev w).
Proof.
  destruct (falsy_cases (name ev)) as [Hf|(key & Hname & Hkey)].
  { rewrite processImage_unkeyed by assumption. now constructor. }
  rewrite (processImage_keyed E ev w key) by assumption.
  unfold bind at 1. unfold firestore_get.
  destruct (get_fault E) eqn:Hget.
  { cbn [record bind ret throw fst snd]. now apply Lookup_failed. }
  cbn [record bind ret throw fst snd image_logs].
  fold (called (Firestore_get key) true w).
  destruct (logs_decide (image_logs w) key) as [(d & Hin & Hd)|Hno].
  { rewrite bool_decide_eq_false_2 by (eapply found_not_empty; eassumption).
    now apply (Already_recorded E ev w key d). }
  rewrite (not_found_empty _ _ Hno).
  rewrite bool_decide_eq_true_2 by reflexivity. cbn [negb].
  unfold try_finally. rewrite try_catch_rethrow.
  destruct (is_directory ("/tmp/" ++ split_pop key)%string) eqn:Hdir.
  { rewrite try_block_directory, finally_block_directory by assumption.
    now apply Cleanup_refused. }
  destruct (temp_paths_distinct (split_pop key)) as (Hth & Hpr & Hthpr).
  pose proof (try_block_run E key _ _ _ (called (Firestore_get key) true w)
                Hth Hpr Hthpr) as Hrun.
  destruct (try_block _ _ _ _ _ _) as [r w1].
  rewrite finally_block_eq by assumption.
  now apply Entered.
Qed.

Lemma stops_at_failure_release cs :
  stops_at_failure cs = true ->
  only_release_follows (cs ++ [(Exiftool_end, true)]) = true.
Proof.
  induction cs as [|[c [|]] cs IH]; simpl; intros H; [reflexivity|auto|].
  destruct cs; [reflexivity|discriminate].
Qed.

Lemma only_release_follows_sound cs : forall pre c post,
  only_release_follows cs = true -> cs = pre ++ (c, false) :: post ->
  Forall (fun x : call * bool => x.2 = true) pre /\
  (post = [] \/ post = [(Exiftool_end, true)]).
Proof.
  induction cs as [|[c' ok] cs IH]; intros pre c post Hs Heq.
  - now destruct pre.
  - destruct pre as [|[c0 ok0] pre]; simpl in Heq; injection Heq as -> -> ->.
    + split; [constructor|]. simpl in Hs.
      destruct post as [|[[] []] [|? ?]]; try discriminate; auto.
    + simpl in Hs. destruct ok0.
      * destruct (IH pre c post Hs eq_refl) as [Hpre Hpost].
        split; [now constructor | exact Hpost].
      * exfalso. destruct pre as [|[c1 ok1] pre]; simpl in Hs.
        -- destruct c; discriminate.
        -- destruct c1, ok1; try discriminate. destruct pre; discriminate.
Qed.

(** The [try] block stops at the first call that fails and throws the
    error of that call; its only other error is the normalizer's. *)
Lemma block_run_stops E f t pr th w r w1 :
  block_run E f t pr th w (r, w1) ->
  exists new,
    calls w1 = calls w ++ new /\ stops_at_failure new = true /\
    (forall c, (c, false) ∈ new -> r = Throw (error_of c)) /\
    (forall e, r = Throw e ->
               e = TypeError \/ exists c, (c, false) ∈ new /\ e = error_of c).
Proof.
  intros H. inversion H; subst; leftovers; worlds.
  all: rewrite <- ?app_assoc; cbn [app]; eexists; split; [reflexivity|].
  all: split; [reflexivity|].
  all: split;
    [intros c Hin; repeat (apply elem_of_cons in Hin as [[=]|Hin]);
     subst; try reflexivity; now apply elem_of_nil in Hin|].
  all: intros ? [=]; subst; auto.
  all: right; eexists; rewrite !elem_of_cons; split; [eauto 12|reflexivity].
Qed.

(** It writes to the two destinations and to nothing else in the
    buckets. *)
Lemma block_run_storage E f t pr th w r w1 :
  block_run E f t pr th w (r, w1) ->
  forall b n,
    (b, n) <> (THUMBNAIL_BUCKET, ("thumbnail-" ++ split_pop f)%string) ->
    (b, n) <> (PROCESSED_BUCKET, ("processed-" ++ split_pop f)%string) ->
    object_at w1 b n = object_at w b n.
Proof.
  intros H b n HT HP.
  assert (forall (st : gmap string (gmap string bytes)) b' n' c objs,
             (b, n) <> (b', n') -> st !! b' = Some objs ->
             <[b' := <[n' := c]> objs]> st !! b ≫= (fun o => o !! n)
             = st !! b ≫= (fun o => o !! n)) as Hframe.
  { intros st b' n' c objs Hne Hst.
    destruct (decide (b' = b)) as [->|Hb];
      [|now rewrite lookup_insert_ne].
    rewrite lookup_insert_eq, Hst. cbn [mbind option_bind].
    apply lookup_insert_ne. congruence. }
  destruct buckets_distinct as (_ & _ & HTP).
  inversion H; subst; leftovers; unfold object_at; worlds;
    try reflexivity; stages.
  all: rewrite ?Hframe; try reflexivity; try assumption.
  all: now rewrite lookup_insert_ne.
Qed.

(** A successful upload is still in its bucket when the block ends, however
    it ends. *)
Lemma block_run_uploads E f t pr th w r w1 :
  block_run E f t pr th w (r, w1) ->
  exists new,
    calls w1 = calls w ++ new /\
    forall b p d, (Bucket_upload b p d, true) ∈ new ->
                  exists content, object_at w1 b d = Some content.
Proof.
  intros H. destruct buckets_distinct as (_ & _ & HTP).
  inversion H; subst; leftovers; worlds.
  all: rewrite <- ?app_assoc; cbn [app]; eexists; split; [reflexivity|].
  all: intros ? ? ? Hin;
    repeat (apply elem_of_cons in Hin as [[=]|Hin]); subst;
    try now apply elem_of_nil in Hin.
  all: unfold object_at; worlds; simplify_map_eq; eauto.
Qed.

(** Both derived files are written from the one pipeline, on the downloaded
    file and with the resize of line 90 set. *)
Lemma block_run_derivations E f t pr th w r w1 :
  block_run E f t pr th w (r, w1) ->
  exists new,
    calls w1 = calls w ++ new /\
    forall image dest ok, (Sharp_toFile image dest, ok) ∈ new ->
                          input image = t /\ resize_to image = Some (200, 200).
Proof.
  intros H. inversion H; subst; leftovers; worlds.
  all: rewrite <- ?app_assoc; cbn [app]; eexists; split; [reflexivity|].
  all: intros ? ? ? Hin;
    repeat (apply elem_of_cons in Hin as [[=]|Hin]); subst;
    try now apply elem_of_nil in Hin.
  all: now split.
Qed.

Lemma block_run_completed E f t pr th w content meta thumb tags norm objsT
    jpeg objsP r w1 :
  processed_published E f t w content meta thumb tags norm objsT jpeg objsP ->
  add_fault E = false ->
  block_run E f t pr th w (r, w1) ->
  r = Ok Processed /\
  w1 = logged (entry_of E f meta norm)
         (called (Firestore_add (entry_of E f meta norm)) true
            (at_insert f t pr th w content thumb objsT jpeg objsP)).
Proof.
  intros Hall Hadd H.
  inversion H; subst; stages; same;
    repeat match goal with
           | H : _ \/ _ |- _ => destruct H
           end; same; try discriminate.
  now split.
Qed.


(** What the two normal ends of the block tell about the key. *)
Lemma block_run_gate E f t pr th w r w1 :
  block_run E f t pr th w (r, w1) ->
  (r = Ok Processed -> match_image f = true) /\
  (r = Ok Rejected ->
   match_image f = false /\ download_fault E = false /\
   exists content, object_at w SOURCE_BUCKET (filePath_of f) = Some content).
Proof.
  intros H. inversion H; subst; stages; split; intros [=]; eauto.
Qed.

(** The buckets after an invocation. *)
Lemma processImage_storage E ev w key b n :
  name ev = Some key ->
  (b, n) <> (THUMBNAIL_BUCKET, ("thumbnail-" ++ split_pop key)%string) ->
  (b, n) <> (PROCESSED_BUCKET, ("processed-" ++ split_pop key)%string) ->
  object_at (processImage E ev w).2 b n = object_at w b n.
Proof.
  intros Hname HT HP.
  pose proof (processImage_invocation E ev w) as Hinv.
  destruct (processImage E ev w) as [r w']. cbn [snd].
  inversion Hinv; subst; try reflexivity.
  same. eapply block_run_storage in H6; [|eassumption..].
  exact H6.
Qed.

Lemma skipped_when_found E ev w key d :
  name ev = Some key -> key <> "" -> get_fault E = false ->
  d ∈ image_logs w -> fileName d = key ->
  processImage E ev w = (Ok Skipped, called (Firestore_get key) true w).
Proof.
  intros Hname Hkey Hget Hin Hd.
  rewrite (processImage_keyed E ev w key) by assumption.
  unfold bind, firestore_get. rewrite Hget.
  cbn [record bind ret fst snd image_logs].
  rewrite bool_decide_eq_false_2 by (eapply found_not_empty; eassumption).
  reflexivity.
Qed.

(** Past the lookup, on a key that is not recorded and whose local path
    names a file, the handler is the [try] block followed by the whole
    [finally] block. *)
Lemma processImage_entered E ev w key :
  name ev = Some key -> key <> "" -> get_fault E = false ->
  (forall d, d ∈ image_logs w -> fileName d <> key) ->
  is_directory ("/tmp/" ++ split_pop key)%string = false ->
  exists r w1,
    block_run E key ("/tmp/" ++ split_pop key)%string
      ("/tmp/processed-" ++ split_pop key)%string
      ("/tmp/thumbnail-" ++ split_pop key)%string
      (called (Firestore_get key) true w) (r, w1) /\
    processImage E ev w = (r, cleaned key w1).
Proof.
  intros Hname Hkey Hget Hno Hfile.
  pose proof (processImage_invocation E ev w) as Hinv.
  destruct (processImage E ev w) as [r w'].
  inversion Hinv; subst; same; try congruence.
  - match goal with
    | H : falsy _ = true |- _ =>
        rewrite Hname in H; simpl in H; apply String.eqb_eq in H; congruence
    end.
  - match goal with H : _ ∈ image_logs w |- _ => now destruct (Hno _ H) end.
  - eauto.
Qed.

(** Removing the three files the block has written leaves what removing
    them from the files before leaves. *)
Lemma cleaned_files (m : gmap string bytes) t th pr c1 c2 c3 :
  delete pr (delete th (delete t (<[pr := c3]> (<[th := c2]> (<[t := c1]> m)))))
  = delete pr (delete th (delete t m)).
Proof.
  apply deleted_thrice. intros p Ht Hth Hpr.
  now rewrite !lookup_insert_ne by congruence.
Qed.

Lemma has_slash_app a b :
  has_slash (a ++ b)%string = has_slash a || has_slash b.
Proof.
  induction a as [|c a IH]; [reflexivity|].
  rewrite append_cons. simpl. now rewrite IH, orb_assoc.
Qed.

Lemma append_nil_r (a : string) : (a ++ "")%string = a.
Proof.
  induction a as [|c a IH]; [reflexivity|]. now rewrite append_cons, IH.
Qed.

Lemma append_assoc (a b c : string) :
  ((a ++ b) ++ c)%string = (a ++ (b ++ c))%string.
Proof.
  induction a as [|x a IH]; [now rewrite !append_nil_l|].
  now rewrite !append_cons, IH.
Qed.

Lemma split_slash_last cur s :
  exists init,
    split_slash cur s = init ++ [List.last (split_slash cur s) ""%string].
Proof.
  revert cur. induction s as [|c s IH]; intros cur; simpl.
  - now exists [].
  - destruct (Ascii.eqb c "/").
    + destruct (IH ""%string) as [init Hinit].
      exists (cur :: init). rewrite Hinit at 1.
      destruct (split_slash "" s) eqn:Hs; [now destruct init|].
      reflexivity.
    + apply IH.
Qed.

(** Without a slash there is one segment. *)
Lemma split_slash_flat s : forall cur,
  has_slash s = false -> split_slash cur s = [(cur ++ s)%string].
Proof.
  induction s as [|c s IH]; intros cur Hs; simpl in *.
  - now rewrite append_nil_r.
  - apply orb_false_iff in Hs as [Hc Hs]. rewrite Hc, IH by assumption.
    now rewrite append_assoc, append_cons, append_nil_l.
Qed.

Lemma split_slash_segment dir base : forall cur,
  has_slash base = false ->
  List.last (split_slash cur (dir ++ "/" ++ base)%string) ""%string = base.
Proof.
  induction dir as [|c dir IH]; intros cur Hbase.
  - rewrite append_nil_l, append_cons, append_nil_l. simpl.
    rewrite split_slash_flat by assumption. simpl. apply append_nil_l.
  - rewrite append_cons. simpl. destruct (Ascii.eqb c "/").
    + specialize (IH ""%string Hbase).
      destruct (split_slash "" (dir ++ "/" ++ base)%string) eqn:Hs;
        [|exact IH].
      destruct (split_slash_last "" (dir ++ "/" ++ base)%string) as [init Hi].
      rewrite Hs in Hi. now destruct init.
    + now apply IH.
Qed.

Lemma split_slash_no_slash s : forall cur,
  has_slash cur = false ->
  has_slash (List.last (split_slash cur s) ""%string) = false.
Proof.
  induction s as [|c s IH]; intros cur Hcur; simpl; [exact Hcur|].
  destruct (Ascii.eqb c "/") eqn:Hc.
  - specialize (IH ""%string eq_refl).
    destruct (split_slash "" s) eqn:Hs; [|exact IH].
    destruct (split_slash_last "" s) as [init Hi].
    rewrite Hs in Hi. now destruct init.
  - apply IH. rewrite has_slash_app, Hcur. simpl. now rewrite Hc.
Qed.

(** The last segment of a key holds no slash: the local files are
    written to [/tmp] itself. *)
Lemma split_pop_no_slash key : has_slash (split_pop key) = false.
Proof. now apply split_slash_no_slash. Qed.

End Runs.

(* ===================================================================== *)
(** ** What the normalizer builds                                          *)
(* ===================================================================== *)

Section Plain_data.

Open Scope list_scope.













End Plain_data.

(* ===================================================================== *)
(** ** Further properties                                                  *)
(* ===================================================================== *)

(** The five ways of an invocation, one goal each. *)
Ltac ways E ev w :=
  let Hinv := fresh "Hinv" in
  pose proof (processImage_invocation E ev w) as Hinv;
  destruct (processImage E ev w) as [? ?]; cbn [fst snd] in *;
  inversion Hinv; subst; clear Hinv.

Section Further.

Open Scope list_scope.

(** *** The normalizer *)











(** *** The handler *)

(** X6.  When no fault occurs on the way (the key is new, its local path
    names a file, its object is there, it passes the type gate, and every
    derivation, extraction, conversion, upload and insert succeeds) the
    handler ends as processed: both derived files are in their buckets
    under the key's last segment, the one record is added, the three local
    files are gone and the extractor is released; the calls made are,
    in order, those of [success_trace]. *)
Theorem faultless_run_is_processed E ev w key content meta thumb tags norm
    objsT jpeg objsP :
  name ev = Some key -> key <> "" -> get_fault E = false ->
  Forall (fun d => fileName d <> key) (image_logs w) ->
  is_directory ("/tmp/" ++ split_pop key)%string = false ->
  download_fault E = false ->
  object_at w SOURCE_BUCKET (filePath_of key) = Some content ->
  match_image key = true ->
  sharp_metadata E content = Some meta ->
  sharp_toFile E (resize (sharp ("/tmp/" ++ split_pop key)%string) 200 200)
    content = Written thumb ->
  exiftool_read E content = Some tags ->
  makeFirestoreCompatible tags = Ok norm ->
  upload_fault E THUMBNAIL_BUCKET = false ->
  storage w !! THUMBNAIL_BUCKET = Some objsT ->
  sharp_toFile E
    (toFormat (resize (sharp ("/tmp/" ++ split_pop key)%string) 200 200) "jpeg")
    content = Written jpeg ->
  upload_fault E PROCESSED_BUCKET = false ->
  storage w !! PROCESSED_BUCKET = Some objsP ->
  add_fault E = false ->
  processImage E ev w =
  (Ok Processed,
   {| image_logs := image_logs w ++ [entry_of E key meta norm];
      storage :=
        <[PROCESSED_BUCKET :=
            <[("processed-" ++ split_pop key)%string := jpeg]> objsP]>
          (<[THUMBNAIL_BUCKET :=
               <[("thumbnail-" ++ split_pop key)%string := thumb]> objsT]>
             (storage w));
      tmp := delete ("/tmp/processed-" ++ split_pop key)%string
               (delete ("/tmp/thumbnail-" ++ split_pop key)%string
                  (delete ("/tmp/" ++ split_pop key)%string (tmp w)));
      exiftool_ended := S (exiftool_ended w);
      calls := calls w ++ success_trace key (entry_of E key meta norm) |}).
Proof.
  intros Hname Hkey Hget Hno Hfile Hdl Hobj Hgate Hmeta Hthumb Hexif Hnorm
    HupT HT Hjpeg HupP HP Hadd.
  rewrite Forall_forall in Hno.
  destruct (processImage_entered E ev w key) as (r & w1 & Hrun & ->);
    try assumption.
  eapply block_run_completed in Hrun as [-> ->];
    [|unfold processed_published, reencoded, thumbnail_published, converted,
        extracted, resized, measured, downloaded; repeat split; eassumption
     |assumption].
  apply (f_equal2 pair eq_refl). unfold cleaned. worlds.
  rewrite cleaned_files.
  unfold success_trace. now rewrite <- !app_assoc.
Qed.

Lemma faultless_run_is_processed_witness :
  processImage sample_env {| name := Some "a/x.jpg"%string |} sample_world =
  (Ok Processed,
   {| image_logs := [entry_of sample_env "a/x.jpg" sample_meta sample_norm];
      storage :=
        <[PROCESSED_BUCKET :=
            <["processed-x.jpg"%string := ["j"%byte; "1"%byte]]> ∅]>
          (<[THUMBNAIL_BUCKET :=
               <["thumbnail-x.jpg"%string := ["t"%byte; "1"%byte]]> ∅]>
             (storage sample_world));
      tmp := delete "/tmp/processed-x.jpg"%string
               (delete "/tmp/thumbnail-x.jpg"%string
                  (delete "/tmp/x.jpg"%string ∅));
      exiftool_ended := 1;
      calls :=
        success_trace "a/x.jpg"
          (entry_of sample_env "a/x.jpg" sample_meta sample_norm) |}).
Proof.
  apply (faultless_run_is_processed sample_env _ sample_world "a/x.jpg"
           ["1"%byte] sample_meta ["t"%byte; "1"%byte] sample_tags sample_norm
           ∅ ["j"%byte; "1"%byte] ∅);
    try reflexivity; [discriminate | constructor].
Defined.

(** X7.  Running the handler again on an event it has processed skips it,
    whatever the state of the other collaborators: the record written on
    line 115 is what the lookup of line 54 finds. *)
Theorem processed_then_skipped E E' ev w w1 :
  processImage E ev w = (Ok Processed, w1) ->
  get_fault E' = false ->
  exists key,
    name ev = Some key /\
    processImage E' ev w1 =
    (Ok Skipped,
     {| image_logs := image_logs w1; storage := storage w1; tmp := tmp w1;
        exiftool_ended := exiftool_ended w1;
        calls := calls w1 ++ [(Firestore_get key, true)] |}).
Proof.
  intros Hrun Hget.
  destruct (falsy_cases (name ev)) as [Hf|(key & Hname & Hkey)].
  { rewrite processImage_unkeyed in Hrun by assumption. discriminate. }
  apply processImage_processed in Hrun
    as (k & _ & _ & _ & _ & _ & entry & Hname' & Hentry & _ & _ & _ & _ & _
        & _ & Hlogs & _).
  rewrite Hname in Hname'. injection Hname' as <-.
  exists key. split; [exact Hname|].
  apply (skipped_when_found E' ev w1 key entry); try assumption.
  rewrite Hlogs. apply elem_of_app. right. left.
Qed.

Lemma processed_then_skipped_witness :
  exists key,
    Some "a/x.jpg"%string = Some key /\
    processImage (faulty_env false true None (fun _ => true))
      {| name := Some "a/x.jpg"%string |} processed_world =
    (Ok Skipped,
     {| image_logs := image_logs processed_world;
        storage := storage processed_world;
        tmp := tmp processed_world;
        exiftool_ended := exiftool_ended processed_world;
        calls := calls processed_world ++ [(Firestore_get key, true)] |}).
Proof.
  apply (processed_then_skipped sample_env
           (faulty_env false true None (fun _ => true))
           {| name := Some "a/x.jpg"%string |} sample_world processed_world);
    [vm_compute; reflexivity | reflexivity].
Defined.

(** X8.  The handler skips exactly the events whose key is non-empty and
    on record, the lookup answering. *)
Theorem skipped_exactly_when_recorded E ev w :
  (processImage E ev w).1 = Ok Skipped <->
  exists key d,
    name ev = Some key /\ key <> "" /\ get_fault E = false /\
    d ∈ image_logs w /\ fileName d = key.
Proof.
  split.
  - ways E ev w; intros [=]; subst;
      try match goal with
          | H : block_run _ _ _ _ _ _ _ |- _ => now inversion H
          end.
    eexists _, _. repeat split; eauto.
  - intros (key & d & Hname & Hkey & Hget & Hin & Hd).
    now rewrite (skipped_when_found E ev w key d).
Qed.



(** X10.  Nothing is rolled back: whatever an invocation has uploaded is in
    its bucket when the invocation ends, also when a later step fails and
    the handler throws (so a thumbnail can be published for a key that has
    no record). *)
Theorem uploads_are_not_rolled_back E ev w :
  exists new,
    calls (processImage E ev w).2 = calls w ++ new /\
    forall b p d,
      (Bucket_upload b p d, true) ∈ new ->
      exists content, object_at (processImage E ev w).2 b d = Some content.
Proof.
  ways E ev w.
  5: { match goal with
       | H : block_run _ _ _ _ _ _ _ |- _ =>
           apply block_run_uploads in H as (new & Hcalls & Hup)
       end.
       exists ((Firestore_get key, true) :: new ++ [(Exiftool_end, true)]).
       worlds. rewrite Hcalls. worlds.
       split; [now rewrite <- !app_assoc|].
       intros ? ? ? [[=]|Hin]%elem_of_cons.
       apply elem_of_app in Hin as [Hin|[=]%list_elem_of_singleton].
       exact (Hup _ _ _ Hin). }
  all: worlds; rewrite <- ?app_assoc; eexists;
    (split; [first [reflexivity | symmetry; apply app_nil_r]|]).
  all: intros ? ? ? Hin; exfalso;
    repeat (apply elem_of_cons in Hin as [[=]|Hin]);
    now apply elem_of_nil in Hin.
Qed.

(** For instance, with the uploads to the processed bucket failing, the
    thumbnail of a key is published and the key has no record. *)
Lemma thumbnail_without_record :
  let E := faulty_env false false None (String.eqb PROCESSED_BUCKET) in
  let run := processImage E {| name := Some "a/x.jpg"%string |} sample_world in
  run.1 = Throw UploadFailed /\
  object_at run.2 THUMBNAIL_BUCKET "thumbnail-x.jpg"
    = Some ["t"%byte; "1"%byte] /\
  image_logs run.2 = [].
Proof. vm_compute. repeat split. Qed.

(** X11.  An invocation changes no object but the two destinations of its
    key: every other object of every bucket is as it was. *)
Theorem only_destinations_written E ev w key b n :
  name ev = Some key ->
  (b, n) <> (THUMBNAIL_BUCKET, ("thumbnail-" ++ split_pop key)%string) ->
  (b, n) <> (PROCESSED_BUCKET, ("processed-" ++ split_pop key)%string) ->
  object_at (processImage E ev w).2 b n = object_at w b n.
Proof. apply processImage_storage. Qed.

Lemma only_destinations_written_witness :
  object_at
    (processImage sample_env {| name := Some "a/x.jpg"%string |} sample_world).2
    THUMBNAIL_BUCKET "thumbnail-y.jpg" =
  object_at sample_world THUMBNAIL_BUCKET "thumbnail-y.jpg".
Proof.
  apply (only_destinations_written sample_env _ sample_world "a/x.jpg");
    [reflexivity | discriminate | discriminate].
Defined.

(** X12.  The source bucket is only read: no invocation adds, replaces or
    removes an object of it, the uploaded original included. *)
Theorem source_bucket_only_read E ev w n :
  object_at (processImage E ev w).2 SOURCE_BUCKET n =
  object_at w SOURCE_BUCKET n.
Proof.
  destruct (falsy_cases (name ev)) as [Hf|(key & Hname & Hkey)].
  - now rewrite processImage_unkeyed.
  - apply (processImage_storage E ev w key); [assumption|..]; discriminate.
Qed.

(** X13.  At most one call fails in an invocation, and the work ends there:
    the only call that may follow is the release of the [finally] block.
    The error thrown is the one of the failed call, unless the cleanup
    itself gives up; and every error thrown is the missing key's, the
    normalizer's, the cleanup's or that of a call that failed. *)
Theorem failure_ends_the_work E ev w :
  exists new,
    calls (processImage E ev w).2 = calls w ++ new /\
    (forall pre c post,
        new = pre ++ (c, false) :: post ->
        Forall (fun x : call * bool => x.2 = true) pre /\
        (post = [] \/ post = [(Exiftool_end, true)])) /\
    (forall c,
        (c, false) ∈ new ->
        (processImage E ev w).1 = Throw (error_of c) \/
        (processImage E ev w).1 = Throw CleanupFailed) /\
    (forall e,
        (processImage E ev w).1 = Throw e ->
        e = InvalidEvent \/ e = TypeError \/ e = CleanupFailed \/
        exists c, (c, false) ∈ new /\ e = error_of c).
Proof.
  ways E ev w.
  5: { match goal with
       | H : block_run _ _ _ _ _ _ _ |- _ =>
           apply block_run_stops in H as (new & Hcalls & Hstop & Hfail & Herr)
       end.
       exists ((Firestore_get key, true) :: new ++ [(Exiftool_end, true)]).
       worlds. rewrite Hcalls. worlds.
       split; [now rewrite <- !app_assoc|].
       split.
       { intros ? ? ?. apply only_release_follows_sound.
         now apply stops_at_failure_release. }
       split.
       { intros ? [[=]|Hin]%elem_of_cons.
         apply elem_of_app in Hin as [Hin|[=]%list_elem_of_singleton].
         left. now apply Hfail. }
       intros e He. destruct (Herr e He) as [->|(failed & Hin & ->)]; auto.
       right. right. right. exists failed. split; [|reflexivity].
       right. apply elem_of_app. now left. }
  all: worlds; rewrite <- ?app_assoc; eexists;
    (split; [first [reflexivity | symmetry; apply app_nil_r]|]).
  all: split;
    [intros ? ? ?; now apply only_release_follows_sound|].
  all: split;
    [intros ? Hin; repeat (apply elem_of_cons in Hin as [[=]|Hin]); subst;
     auto; now apply elem_of_nil in Hin|].
  all: intros ? [=]; subst; auto.
  right. right. right. eexists. split; [left|reflexivity].
Qed.

(** X14.  The processed copy is written from the same sharp pipeline as the
    thumbnail, after the resize of line 90 has been set on it: every file
    an invocation derives is produced from the downloaded file with the
    200 by 200 resize in effect, the JPEG of line 102 included. *)
Theorem processed_copy_is_resized E ev w :
  exists new,
    calls (processImage E ev w).2 = calls w ++ new /\
    forall image dest ok,
      (Sharp_toFile image dest, ok) ∈ new ->
      resize_to image = Some (200, 200) /\
      exists key,
        name ev = Some key /\ input image = ("/tmp/" ++ split_pop key)%string.
Proof.
  ways E ev w.
  5: { match goal with
       | H : block_run _ _ _ _ _ _ _ |- _ =>
           apply block_run_derivations in H as (new & Hcalls & Hder)
       end.
       exists ((Firestore_get key, true) :: new ++ [(Exiftool_end, true)]).
       worlds. rewrite Hcalls. worlds.
       split; [now rewrite <- !app_assoc|].
       intros ? ? ? [[=]|Hin]%elem_of_cons.
       apply elem_of_app in Hin as [Hin|[=]%list_elem_of_singleton].
       destruct (Hder _ _ _ Hin) as [Hinput Hresize]. eauto. }
  all: worlds; rewrite <- ?app_assoc; eexists;
    (split; [first [reflexivity | symmetry; apply app_nil_r]|]).
  all: intros ? ? ? Hin; exfalso;
    repeat (apply elem_of_cons in Hin as [[=]|Hin]);
    now apply elem_of_nil in Hin.
Qed.

(** X15.  How an invocation ends tells the type of its key: it ends as
    processed only on a key with an accepted suffix, and as rejected only
    on a key without one whose object has been downloaded first. *)
Theorem outcome_tells_the_type E ev w :
  ((processImage E ev w).1 = Ok Processed ->
   exists key, name ev = Some key /\ has_image_suffix key) /\
  ((processImage E ev w).1 = Ok Rejected ->
   exists key content,
     name ev = Some key /\ ~ has_image_suffix key /\
     download_fault E = false /\
     object_at w SOURCE_BUCKET (filePath_of key) = Some content).
Proof.
  ways E ev w; try solve [split; intros [=]].
  match goal with
  | H : block_run _ _ _ _ _ _ _ |- _ =>
      apply block_run_gate in H as [Hp Hr]
  end.
  split; intros Hend.
  - exists key. split; [assumption|]. now apply match_image_spec, Hp.
  - destruct (Hr Hend) as (Hgate & Hfault & content & Hobj).
    exists key, content. repeat split; try assumption.
    intros Hs%match_image_spec. congruence.
Qed.

(** X16.  A key whose last segment is empty, [.] or [..] (the placeholder
    object of a folder, say) makes the local path a directory: the download
    fails, line 130 throws in turn, and it is the cleanup's error that the
    caller sees; line 135 is not reached. *)
Theorem directory_key_fails_in_cleanup E ev w key :
  name ev = Some key -> key <> "" -> get_fault E = false ->
  Forall (fun d => fileName d <> key) (image_logs w) ->
  split_pop key = "" \/ split_pop key = "." \/ split_pop key = ".." ->
  processImage E ev w =
  (Throw CleanupFailed,
   {| image_logs := image_logs w; storage := storage w; tmp := tmp w;
      exiftool_ended := exiftool_ended w;
      calls := calls w ++
        [(Firestore_get key, true);
         (Bucket_download SOURCE_BUCKET (filePath_of key)
            ("/tmp/" ++ split_pop key)%string, false)] |}).
Proof.
  intros Hname Hkey Hget Hno Hlast.
  rewrite Forall_forall in Hno.
  assert (is_directory ("/tmp/" ++ split_pop key)%string = true) as Hdir
    by (destruct Hlast as [-> |[-> | ->]]; reflexivity).
  ways E ev w; same; try congruence.
  - match goal with
    | H : falsy _ = true |- _ =>
        rewrite Hname in H; simpl in H; apply String.eqb_eq in H; congruence
    end.
  - match goal with H : _ ∈ image_logs w |- _ => now destruct (Hno _ H) end.
  - apply (f_equal2 pair eq_refl). unfold the_download, called. worlds.
    now rewrite <- app_assoc.
Qed.

Lemma directory_key_fails_in_cleanup_witness :
  processImage sample_env {| name := Some "photos/"%string |} sample_world =
  (Throw CleanupFailed,
   {| image_logs := []; storage := storage sample_world; tmp := ∅;
      exiftool_ended := 0;
      calls :=
        [(Firestore_get "photos/"%string, true);
         (Bucket_download SOURCE_BUCKET "photos/"%string "/tmp/"%string,
          false)] |}).
Proof.
  apply (directory_key_fails_in_cleanup sample_env _ sample_world "photos/");
    [reflexivity | discriminate | reflexivity | constructor
    | left; reflexivity].
Defined.

(** X17.  When the lookup of line 54 fails the handler throws its error
    from outside the [try] statement: nothing else is called, and the
    extractor is not released. *)
Theorem failed_lookup_ends_outside_try E ev w key :
  name ev = Some key -> key <> "" -> get_fault E = true ->
  processImage E ev w =
  (Throw QueryFailed,
   {| image_logs := image_logs w; storage := storage w; tmp := tmp w;
      exiftool_ended := exiftool_ended w;
      calls := calls w ++ [(Firestore_get key, false)] |}).
Proof.
  intros Hname Hkey Hget.
  ways E ev w; same; try congruence; try reflexivity.
  match goal with
  | H : falsy _ = true |- _ =>
      rewrite Hname in H; simpl in H; apply String.eqb_eq in H; congruence
  end.
Qed.

Lemma failed_lookup_ends_outside_try_witness :
  processImage (faulty_env true false None (fun _ => false))
    {| name := Some "a/x.jpg"%string |} sample_world =
  (Throw QueryFailed,
   {| image_logs := []; storage := storage sample_world; tmp := ∅;
      exiftool_ended := 0;
      calls := [(Firestore_get "a/x.jpg"%string, false)] |}).
Proof.
  apply (failed_lookup_ends_outside_try
           (faulty_env true false None (fun _ => false)) _ sample_world
           "a/x.jpg");
    [reflexivity | discriminate | reflexivity].
Defined.

(** X18.  The local file names and the destination names are built from
    the part of the key after its last slash: the directories of the key
    play no part in them. *)
Theorem local_name_is_last_segment dir base :
  has_slash base = false ->
  split_pop (dir ++ "/" ++ base) = base /\ split_pop base = base.
Proof.
  intros Hbase. unfold split_pop. split.
  - now apply split_slash_segment.
  - rewrite split_slash_flat by assumption. simpl. apply append_nil_l.
Qed.

Lemma local_name_is_last_segment_witness :
  split_pop ("2024/05" ++ "/" ++ "x.jpg") = "x.jpg" /\
  split_pop "x.jpg" = "x.jpg".
Proof.
  apply (local_name_is_last_segment "2024/05" "x.jpg"). reflexivity.
Defined.

End Further.
